(** * split_geo: a region quadtree that splits a set of OSM nodes geographically

    Shallow embedding of [src/split_geo.py] and the properties of its
    quadtree ([QTNode]): insertion ([add], [add_2_child], [split]) and the
    traversal that writes one file per non-empty leaf ([write_leaves]).

    Conventions of the embedding.
    - Python floats are IEEE 754 binary64 numbers: they are Rocq's primitive
      floats, with the same operations ([+], [/], [<=?]).  [a >= b] is
      written [b <=? a].
    - [max_members] is a Python int: [Z].
    - A [QTNode] object is a value of an inductive type.  A method that
      mutates [self] is a function that returns the new [self]; a call on a
      child, [self.upper_right.add(n)], stores the child it returns back in
      the parent.  No node is ever shared between two parents, so nothing is
      lost by representing the object graph as a tree.
    - [add] recurses through [split] and [add_2_child] without any bound in
      the source.  The embedding takes the depth of nested [add] calls that
      it may use as an argument [fuel], and answers [OutOfFuel] when that
      depth does not suffice.  "The call returns" is: some fuel gives [Ok];
      "the recursion is unbounded" is: every fuel gives [OutOfFuel].
    - Writing a file is recorded as an event, the path together with the
      chunks passed to [file_handle.write], in the order in which the files
      are opened; [run_io] replays such events on a file system. *)

From Stdlib Require Import ZArith Floats Ascii String.
From stdpp Require Import gmap strings list fin_maps.

Local Open Scope Z_scope.

(** ** Outcomes of a call *)

Inductive result (A : Type) : Type :=
| Ok (a : A)          (* the call returns *)
| AttributeError      (* an attribute of [None] is accessed *)
| OutOfFuel.          (* the allowed depth of recursion is exceeded *)

Arguments Ok {A} a.
Arguments AttributeError {A}.
Arguments OutOfFuel {A}.

#[global] Instance result_ret : MRet result := fun _ a => Ok a.
#[global] Instance result_bind : MBind result := fun _ _ k m =>
  match m with
  | Ok a => k a
  | AttributeError => AttributeError
  | OutOfFuel => OutOfFuel
  end.

(** [for x in l: s = body(s, x)], stopping at the first call that does not
    return. *)
Fixpoint for_each {A S : Type} (body : S -> A -> result S) (l : list A) (s : S)
  : result S :=
  match l with
  | [] => Ok s
  | x :: l' => s' ← body s x; for_each body l' s'
  end.

(** ** Data *)

(** The payload, an [ElementTree.Element].  The program only ever serialises
    it, so an element is represented by its serialisation. *)
Definition Element : Type := string.

Definition tostring (e : Element) : string := e.

(** [class OsmNodeWrapper] *)
Record OsmNodeWrapper : Type := mkOsmNodeWrapper {
  lat : float;
  lon : float;
  node : Element
}.

(** The scalar attributes and the member list of a [QTNode]. *)
Record QTFields : Type := mkQTFields {
  members : list OsmNodeWrapper;
  min_lat : float;
  max_lat : float;
  mid_lat : float;
  min_lon : float;
  max_lon : float;
  mid_lon : float;
  max_members : Z
}.

(** [class QTNode].  [Leaf] is [is_leaf = True] with the four child
    attributes [None]; [Internal] is [is_leaf = False] with the four
    children set. *)
Inductive QTNode : Type :=
| Leaf (f : QTFields)
| Internal (f : QTFields) (lower_left lower_right upper_left upper_right : QTNode).

Definition fields (self : QTNode) : QTFields :=
  match self with
  | Leaf f => f
  | Internal f _ _ _ _ => f
  end.

Definition is_leaf (self : QTNode) : bool :=
  match self with
  | Leaf _ => true
  | Internal _ _ _ _ _ => false
  end.

Definition set_members (f : QTFields) (ms : list OsmNodeWrapper) : QTFields :=
  mkQTFields ms (min_lat f) (max_lat f) (mid_lat f)
             (min_lon f) (max_lon f) (mid_lon f) (max_members f).

Definition set_mids (f : QTFields) (mlat mlon : float) : QTFields :=
  mkQTFields (members f) (min_lat f) (max_lat f) mlat
             (min_lon f) (max_lon f) mlon (max_members f).

Definition with_fields (self : QTNode) (f : QTFields) : QTNode :=
  match self with
  | Leaf _ => Leaf f
  | Internal _ ll lr ul ur => Internal f ll lr ul ur
  end.

(** ** Methods of [QTNode] *)

(** [QTNode.__init__] *)
Definition QTNode_init (min_lat max_lat min_lon max_lon : float) (max_members : Z)
  : QTNode :=
  Leaf {| members := [];
          min_lat := min_lat;
          max_lat := max_lat;
          mid_lat := (min_lat + max_lat) / 2;
          min_lon := min_lon;
          max_lon := max_lon;
          mid_lon := (min_lon + max_lon) / 2;
          max_members := max_members |}.

Section Methods.
(** The method [add] of the children, as far as the remaining depth of
    recursion lets it run. *)
Variable add : QTNode -> OsmNodeWrapper -> result QTNode.

(** [QTNode.add_2_child] *)
Definition add_2_child_with (self : QTNode) (osm_node : OsmNodeWrapper)
  : result QTNode :=
  match self with
  | Leaf _ => AttributeError
  | Internal f lower_left lower_right upper_left upper_right =>
      if (mid_lat f <=? lat osm_node)%float then
        if (mid_lon f <=? lon osm_node)%float then
          upper_right' ← add upper_right osm_node;
          Ok (Internal f lower_left lower_right upper_left upper_right')
        else
          upper_left' ← add upper_left osm_node;
          Ok (Internal f lower_left lower_right upper_left' upper_right)
      else
        if (mid_lon f <=? lon osm_node)%float then
          lower_right' ← add lower_right osm_node;
          Ok (Internal f lower_left lower_right' upper_left upper_right)
        else
          lower_left' ← add lower_left osm_node;
          Ok (Internal f lower_left' lower_right upper_left upper_right)
  end.

(** [QTNode.split] *)
Definition split_with (self : QTNode) : result QTNode :=
  let f := fields self in
  let upper_left :=
    QTNode_init ((min_lat f + max_lat f) / 2) (max_lat f)
                (min_lon f) ((min_lon f + max_lon f) / 2) (max_members f) in
  let lower_left :=
    QTNode_init (min_lat f) ((max_lat f + min_lat f) / 2)
                (min_lon f) ((min_lon f + max_lon f) / 2) (max_members f) in
  let upper_right :=
    QTNode_init ((min_lat f + max_lat f) / 2) (max_lat f)
                ((min_lon f + max_lon f) / 2) (max_lon f) (max_members f) in
  let lower_right :=
    QTNode_init (min_lat f) ((max_lat f + min_lat f) / 2)
                ((min_lon f + max_lon f) / 2) (max_lon f) (max_members f) in
  let self1 :=
    Internal (set_mids f ((max_lat f + min_lat f) / 2)
                         ((max_lon f + min_lon f) / 2))
             lower_left lower_right upper_left upper_right in
  self2 ← for_each add_2_child_with (members f) self1;
  Ok (with_fields self2 (set_members (fields self2) [])).
End Methods.

(** [QTNode.add].  [fuel] bounds the depth of nested calls of [add]. *)
Fixpoint add (fuel : nat) (self : QTNode) (osm_node : OsmNodeWrapper)
  : result QTNode :=
  match fuel with
  | O => OutOfFuel
  | S fuel' =>
      match self with
      | Leaf f =>
          let f' := set_members f (members f ++ [osm_node]) in
          if Z.of_nat (length (members f')) >? max_members f'
          then split_with (add fuel') (Leaf f')
          else Ok (Leaf f')
      | Internal _ _ _ _ _ => add_2_child_with (add fuel') self osm_node
      end
  end.

Definition add_2_child (fuel : nat) : QTNode -> OsmNodeWrapper -> result QTNode :=
  add_2_child_with (add fuel).

Definition split (fuel : nat) : QTNode -> result QTNode :=
  split_with (add fuel).

(** ** Writing the leaves *)

(** [os.path.join] of two components (posixpath). *)
Fixpoint endswith_sep (s : string) : bool :=
  match s with
  | EmptyString => false
  | String c EmptyString => Ascii.eqb c "/"%char
  | String _ s' => endswith_sep s'
  end.

Definition os_path_join (a b : string) : string :=
  if String.prefix "/" b then b
  else if (String.eqb a "" || endswith_sep a)%bool then a +:+ b
  else a +:+ "/" +:+ b.

Definition newline : string := String (Ascii.ascii_of_nat 10) EmptyString.

Definition osm_header : string :=
  "<?xml version='1.0' encoding='UTF-8'?>" +:+ newline +:+
  "<osm version='0.6' upload='never' download='never' generator='JOSM'>" +:+ newline.

Definition osm_footer : string := "</osm>".

(** One file opened with mode ["w"], and the strings written to it before
    it is closed. *)
Record file_write : Type := mkFileWrite {
  fw_path : string;
  fw_chunks : list string
}.

(** What the body of [with open(...)] writes for a member list. *)
Definition leaf_chunks (ms : list OsmNodeWrapper) : list string :=
  osm_header :: (map (fun member => tostring (node member)) ms ++ [osm_footer]).

(** [QTNode.write_leaves].  Returns the node after the call and the files
    written, in order. *)
Fixpoint write_leaves (self : QTNode) (out_dir file_name : string)
  : QTNode * list file_write :=
  match self with
  | Leaf f =>
      match members f with
      | [] => (self, [])
      | _ :: _ =>
          let file_name := os_path_join out_dir (file_name +:+ ".osm") in
          (self, [mkFileWrite file_name (leaf_chunks (members f))])
      end
  | Internal f lower_left lower_right upper_left upper_right =>
      let '(lower_left', w1) := write_leaves lower_left out_dir (file_name +:+ "SW") in
      let '(lower_right', w2) := write_leaves lower_right out_dir (file_name +:+ "SE") in
      let '(upper_left', w3) := write_leaves upper_left out_dir (file_name +:+ "NW") in
      let '(upper_right', w4) := write_leaves upper_right out_dir (file_name +:+ "NE") in
      (Internal f lower_left' lower_right' upper_left' upper_right',
       w1 ++ w2 ++ w3 ++ w4)
  end.

(** A file system: the content of each path, as the chunks written to it.
    Opening with mode ["w"] replaces what the path held. *)
Definition run_write (fs : gmap string (list string)) (w : file_write)
  : gmap string (list string) :=
  <[fw_path w := fw_chunks w]> fs.

Definition run_io (ws : list file_write) (fs : gmap string (list string))
  : gmap string (list string) :=
  foldl run_write fs ws.

(** ** The program *)

(** The loop of [main] that feeds the wrapped ['node'] elements, in document
    order, to the root. *)
Definition add_all (fuel : nat) (quad_tree : QTNode) (nodes : list OsmNodeWrapper)
  : result QTNode :=
  for_each (add fuel) nodes quad_tree.

(** [main], from the parsed input on: [nodes] are the ['node'] children of
    the document root, wrapped with their coordinates.  Every [open] is
    taken to succeed: a run in which [open] raises, as for an [out_dir] that
    does not exist, is not among the runs that return. *)
Definition main (fuel : nat) (nodes : list OsmNodeWrapper) (out_dir : string)
    (max_nodes : Z) (fs : gmap string (list string))
  : result (gmap string (list string)) :=
  let quad_tree := QTNode_init (-90) 90 (-180) 180 max_nodes in
  quad_tree' ← add_all fuel quad_tree nodes;
  Ok (run_io (write_leaves quad_tree' out_dir "root").2 fs).

(** ** The quadrant of a point, and the tree a sequence of points builds *)

Inductive Quadrant : Type := SW | SE | NW | NE.

#[global] Instance Quadrant_eq_dec : EqDecision Quadrant.
Proof. solve_decision. Defined.

(** The routing rule: upper half when the latitude is at least the middle
    latitude, right half when the longitude is at least the middle
    longitude. *)
Definition quadrant (mlat mlon : float) (p : OsmNodeWrapper) : Quadrant :=
  if (mlat <=? lat p)%float
  then (if (mlon <=? lon p)%float then NE else NW)
  else (if (mlon <=? lon p)%float then SE else SW).

Definition child (q : Quadrant) (ll lr ul ur : QTNode) : QTNode :=
  match q with SW => ll | SE => lr | NW => ul | NE => ur end.

Definition set_child (q : Quadrant) (c : QTNode) (self : QTNode) : QTNode :=
  match self with
  | Leaf _ => self
  | Internal f ll lr ul ur =>
      match q with
      | SW => Internal f c lr ul ur
      | SE => Internal f ll c ul ur
      | NW => Internal f ll lr c ur
      | NE => Internal f ll lr ul c
      end
  end.

(** The points of [s] that the rule sends to quadrant [q], in the order of [s]. *)
Definition routed (mlat mlon : float) (q : Quadrant) (s : list OsmNodeWrapper)
  : list OsmNodeWrapper :=
  filter (fun p => quadrant mlat mlon p = q) s.

(** [tree_of cap a b c d s t]: [t] is the tree over the rectangle with
    latitudes from [a] to [b] and longitudes from [c] to [d] that holds the
    sequence [s]: a leaf with members [s] while [s] fits the capacity, and
    otherwise an internal node whose children hold, each in turn, the points
    of [s] that the rule sends to them.  The attributes are written as
    [QTNode_init] and [split] compute them.  This is the invariant of the
    insertion: it does not depend on the order of [s] but for the order of
    the member lists. *)
Inductive tree_of (cap : Z)
  : float -> float -> float -> float -> list OsmNodeWrapper -> QTNode -> Prop :=
| tree_of_leaf a b c d s :
    Z.of_nat (length s) <= cap ->
    tree_of cap a b c d s
      (Leaf (mkQTFields s a b ((a + b) / 2) c d ((c + d) / 2) cap))
| tree_of_internal a b c d s ll lr ul ur :
    cap < Z.of_nat (length s) ->
    tree_of cap a ((b + a) / 2) c ((c + d) / 2)
            (routed ((b + a) / 2) ((d + c) / 2) SW s) ll ->
    tree_of cap a ((b + a) / 2) ((c + d) / 2) d
            (routed ((b + a) / 2) ((d + c) / 2) SE s) lr ->
    tree_of cap ((a + b) / 2) b c ((c + d) / 2)
            (routed ((b + a) / 2) ((d + c) / 2) NW s) ul ->
    tree_of cap ((a + b) / 2) b ((c + d) / 2) d
            (routed ((b + a) / 2) ((d + c) / 2) NE s) ur ->
    tree_of cap a b c d s
      (Internal (mkQTFields [] a b ((b + a) / 2) c d ((d + c) / 2) cap)
                ll lr ul ur).

(** [tree_of] for the child in quadrant [q] of the rectangle [a, b] x [c, d],
    with the bounds that [split] gives that child. *)
Definition child_tree_of (cap : Z) (a b c d : float) (q : Quadrant)
    (s : list OsmNodeWrapper) (t : QTNode) : Prop :=
  match q with
  | SW => tree_of cap a ((b + a) / 2) c ((c + d) / 2) s t
  | SE => tree_of cap a ((b + a) / 2) ((c + d) / 2) d s t
  | NW => tree_of cap ((a + b) / 2) b c ((c + d) / 2) s t
  | NE => tree_of cap ((a + b) / 2) b ((c + d) / 2) d s t
  end.

(** [m] has the coordinates of [p]. *)
Definition coincident (p m : OsmNodeWrapper) : Prop :=
  lat m = lat p /\ lon m = lon p.

(** ** Leaves, paths and regions *)

(** The leaves below a node, left to right in the order of the traversal
    (empty ones included), each with its attributes. *)
Fixpoint leaf_fields (t : QTNode) : list QTFields :=
  match t with
  | Leaf f => [f]
  | Internal _ ll lr ul ur =>
      leaf_fields ll ++ leaf_fields lr ++ leaf_fields ul ++ leaf_fields ur
  end.

(** The attributes of the internal nodes. *)
Fixpoint internal_fields (t : QTNode) : list QTFields :=
  match t with
  | Leaf _ => []
  | Internal f ll lr ul ur =>
      f :: internal_fields ll ++ internal_fields lr
        ++ internal_fields ul ++ internal_fields ur
  end.

(** The two letters that [write_leaves] appends to the file name when it
    descends into a quadrant. *)
Definition code (q : Quadrant) : string :=
  match q with SW => "SW" | SE => "SE" | NW => "NW" | NE => "NE" end.

Fixpoint path_code (path : list Quadrant) : string :=
  match path with
  | [] => ""
  | q :: path' => code q +:+ path_code path'
  end.

(** Leaf enumeration as the specification words it: the non-empty leaves,
    children visited in the order SW, SE, NW, NE, each leaf with the
    sequence of quadrant choices that leads to it from the root. *)
Fixpoint enumerateLeaves (t : QTNode) : list (list Quadrant * list OsmNodeWrapper) :=
  match t with
  | Leaf f =>
      match members f with
      | [] => []
      | _ :: _ => [([], members f)]
      end
  | Internal _ ll lr ul ur =>
      map (prod_map (cons SW) id) (enumerateLeaves ll)
      ++ map (prod_map (cons SE) id) (enumerateLeaves lr)
      ++ map (prod_map (cons NW) id) (enumerateLeaves ul)
      ++ map (prod_map (cons NE) id) (enumerateLeaves ur)
  end.

(** The file that holds an enumerated leaf. *)
Definition leaf_file (out_dir file_name : string)
    (leaf : list Quadrant * list OsmNodeWrapper) : file_write :=
  mkFileWrite (os_path_join out_dir (file_name +:+ path_code leaf.1 +:+ ".osm"))
              (leaf_chunks leaf.2).

(** The serialised elements in a written file: what lies between the
    header and the footer. *)
Definition file_elements (w : file_write) : list string :=
  removelast (tail (fw_chunks w)).

(** The node reached from [t] by the quadrant choices of a path. *)
Fixpoint subtree (t : QTNode) (path : list Quadrant) : option QTNode :=
  match path with
  | [] => Some t
  | q :: path' =>
      match t with
      | Leaf _ => None
      | Internal _ ll lr ul ur => subtree (child q ll lr ul ur) path'
      end
  end.

(** The path along which the routing rule takes a point from [t] down to
    a leaf. *)
Fixpoint route (t : QTNode) (p : OsmNodeWrapper) : list Quadrant :=
  match t with
  | Leaf _ => []
  | Internal f ll lr ul ur =>
      match quadrant (mid_lat f) (mid_lon f) p with
      | SW => SW :: route ll p
      | SE => SE :: route lr p
      | NW => NW :: route ul p
      | NE => NE :: route ur p
      end
  end.

Definition is_upper (q : Quadrant) : bool :=
  match q with NW | NE => true | SW | SE => false end.

Definition is_right (q : Quadrant) : bool :=
  match q with SE | NE => true | SW | NW => false end.

(** A rectangle, as its bounds: minimal and maximal latitude, minimal and
    maximal longitude. *)
Definition rect : Type := float * float * float * float.

(** The rectangle of a node. *)
Definition bounds (f : QTFields) : rect :=
  (min_lat f, max_lat f, min_lon f, max_lon f).

(** The region of a rectangle under the greater-or-equal convention: on each
    axis the lower bound belongs to it, the upper bound does not. *)
Definition in_range (lo hi x : float) : bool :=
  ((lo <=? x)%float && negb (hi <=? x)%float)%bool.

Definition in_rect (r : rect) (p : OsmNodeWrapper) : bool :=
  let '(a, b, c, d) := r in
  (in_range a b (lat p) && in_range c d (lon p))%bool.

(** The quarter of a rectangle in quadrant [q]: both axes bisected at their
    midpoints. *)
Definition quarter (r : rect) (q : Quadrant) : rect :=
  let '(a, b, c, d) := r in
  let mlat := ((a + b) / 2)%float in
  let mlon := ((c + d) / 2)%float in
  match q with
  | SW => (a, mlat, c, mlon)
  | SE => (a, mlat, mlon, d)
  | NW => (mlat, b, c, mlon)
  | NE => (mlat, b, mlon, d)
  end.

(** The number of nested splits below a node. *)
Fixpoint depth (t : QTNode) : nat :=
  match t with
  | Leaf _ => O
  | Internal _ ll lr ul ur =>
      S (Nat.max (Nat.max (depth ll) (depth lr)) (Nat.max (depth ul) (depth ur)))
  end.


(** What the last of the writes [ws] to the path [k] left there, if any. *)
Fixpoint last_write (k : string) (ws : list file_write) : option (list string) :=
  match ws with
  | [] => None
  | w :: ws' =>
      match last_write k ws' with
      | Some v => Some v
      | None => if decide (fw_path w = k) then Some (fw_chunks w) else None
      end
  end.

(** ** The data of the scenarios *)

(** The root that [main] constructs. *)
Definition globe (max_nodes : Z) : QTNode := QTNode_init (-90) 90 (-180) 180 max_nodes.

Definition p_10_10 : OsmNodeWrapper :=
  mkOsmNodeWrapper 10 10 "<node id='1' lat='10' lon='10' />".
Definition p_20_20 : OsmNodeWrapper :=
  mkOsmNodeWrapper 20 20 "<node id='2' lat='20' lon='20' />".
Definition p_m10_m10 : OsmNodeWrapper :=
  mkOsmNodeWrapper (-10) (-10) "<node id='3' lat='-10' lon='-10' />".
Definition p_0_0 : OsmNodeWrapper :=
  mkOsmNodeWrapper 0 0 "<node id='4' lat='0' lon='0' />".

(** The tree that the three points build under capacity 2: one split, at the
    root. *)
Definition three_points_tree : QTNode :=
  Internal (mkQTFields [] (-90) 90 0 (-180) 180 0 2)
    (Leaf (mkQTFields [p_m10_m10] (-90) 0 (-45) (-180) 0 (-90) 2))
    (Leaf (mkQTFields [] (-90) 0 (-45) 0 180 90 2))
    (Leaf (mkQTFields [] 0 90 45 (-180) 0 (-90) 2))
    (Leaf (mkQTFields [p_10_10; p_20_20] 0 90 45 0 180 90 2)).


(** ** The rectangles of the globe *)

(** The intervals that bisecting [lo, hi] at the midpoint, again and again,
    yields within [d] levels. *)
Fixpoint bisections (d : nat) (lo hi : float) : list (float * float) :=
  (lo, hi) ::
  match d with
  | O => []
  | S d' =>
      bisections d' lo ((lo + hi) / 2)%float ++ bisections d' ((lo + hi) / 2)%float hi
  end.

(** The computed midpoint of an interval lies between its ends. *)
Definition midpoint_between (i : float * float) : bool :=
  ((i.1 <=? (i.1 + i.2) / 2)%float && ((i.1 + i.2) / 2 <=? i.2)%float)%bool.

(** ** Further notions for the properties beyond the claims *)

(** The internal nodes below a node, the node itself included. *)
Fixpoint internal_nodes (t : QTNode) : list QTNode :=
  match t with
  | Leaf _ => []
  | Internal _ ll lr ul ur =>
      t :: internal_nodes ll ++ internal_nodes lr
        ++ internal_nodes ul ++ internal_nodes ur
  end.

(** The number of records held by the leaves below a node. *)
Definition points_below (t : QTNode) : nat :=
  length (concat (map members (leaf_fields t))).

(** Two trees of the same shape: the same nodes with the same attributes,
    and in each leaf the same members up to their order. *)
Fixpoint same_shape (t1 t2 : QTNode) : Prop :=
  match t1, t2 with
  | Leaf f1, Leaf f2 =>
      set_members f1 [] = set_members f2 [] /\ members f1 ≡ₚ members f2
  | Internal f1 ll1 lr1 ul1 ur1, Internal f2 ll2 lr2 ul2 ur2 =>
      f1 = f2 /\ same_shape ll1 ll2 /\ same_shape lr1 lr2
      /\ same_shape ul1 ul2 /\ same_shape ur1 ur2
  | _, _ => False
  end.


(** ** The document that [main] reads *)

(** A child of the root element, as the loop of [main] uses it: its tag, its
    attribute dictionary, and the element itself, which is what ends up in
    the record and is serialised by [write_leaves]. *)
Record XmlChild : Type := mkXmlChild {
  tag : string;
  attrib : gmap string string;
  element : Element
}.

(** The exceptions of the loop's own statements: the [KeyError] of a missing
    attribute, with the key, and the [ValueError] of [float], with its
    argument. *)
Inductive exception : Type :=
| KeyError (key : string)
| ValueError (arg : string).

(** How a run on a document ends: it returns, it raises one of these
    exceptions, or it ends as the insertion does. *)
Inductive outcome (A : Type) : Type :=
| Returns (a : A)
| Raises (e : exception)
| RaisesAttributeError
| RunsOutOfFuel.
Arguments Returns {A} a.
Arguments Raises {A} e.
Arguments RaisesAttributeError {A}.
Arguments RunsOutOfFuel {A}.

#[global] Instance outcome_ret : MRet outcome := fun _ a => Returns a.
#[global] Instance outcome_bind : MBind outcome := fun _ _ k m =>
  match m with
  | Returns a => k a
  | Raises e => Raises e
  | RaisesAttributeError => RaisesAttributeError
  | RunsOutOfFuel => RunsOutOfFuel
  end.

Definition of_result {A : Type} (r : result A) : outcome A :=
  match r with
  | Ok a => Returns a
  | AttributeError => RaisesAttributeError
  | OutOfFuel => RunsOutOfFuel
  end.

(** [d[key]] on a dictionary. *)
Definition getitem (d : gmap string string) (key : string) : outcome string :=
  match d !! key with
  | Some v => Returns v
  | None => Raises (KeyError key)
  end.

(** [for x in l: s = body(s, x)] for a body that may raise. *)
Fixpoint for_each_child {A S : Type} (body : S -> A -> outcome S) (l : list A) (s : S)
  : outcome S :=
  match l with
  | [] => Returns s
  | x :: l' => s' ← body s x; for_each_child body l' s'
  end.

Section Document.

(** The built-in [float] on strings: the number read, or nothing where
    [float] raises [ValueError]. *)
Variable float_of_string : string -> option float.

Definition float_ (s : string) : outcome float :=
  match float_of_string s with
  | Some x => Returns x
  | None => Raises (ValueError s)
  end.

(** The three assignments in the loop of [main]: the record made of a
    ['node'] child. *)
Definition wrap (child : XmlChild) : outcome OsmNodeWrapper :=
  s_lat ← getitem (attrib child) "lat";
  lat ← float_ s_lat;
  s_lon ← getitem (attrib child) "lon";
  lon ← float_ s_lon;
  Returns (mkOsmNodeWrapper lat lon (element child)).

(** The body of the loop of [main]. *)
Definition main_loop_body (fuel : nat) (quad_tree : QTNode) (child : XmlChild)
  : outcome QTNode :=
  if String.eqb (tag child) "node" then
    node ← wrap child;
    of_result (add fuel quad_tree node)
  else Returns quad_tree.

(** [main], from the root of the parsed document on: [root] lists the
    children of the root element in document order. *)
Definition main_document (fuel : nat) (root : list XmlChild) (out_dir : string)
    (max_nodes : Z) (fs : gmap string (list string))
  : outcome (gmap string (list string)) :=
  let quad_tree := QTNode_init (-90) 90 (-180) 180 max_nodes in
  quad_tree' ← for_each_child (main_loop_body fuel) root quad_tree;
  Returns (run_io (write_leaves quad_tree' out_dir "root").2 fs).

(** [wraps child w]: the loop makes the record [w] of the child. *)
Definition wraps (child : XmlChild) (w : OsmNodeWrapper) : Prop :=
  wrap child = Returns w.

End Document.

(** The ['node'] children among the children of the root, in document order. *)
Definition node_children (root : list XmlChild) : list XmlChild :=
  filter (fun child => tag child = "node") root.

(** A document for the scenarios: the three points among children of other
    kinds, and the values of [float] on the strings that occur in it. *)
Definition float_of_scenario (s : string) : option float :=
  if String.eqb s "10" then Some 10%float
  else if String.eqb s "20" then Some 20%float
  else if String.eqb s "-10" then Some (-10)%float
  else None.

Definition scenario_document : list XmlChild :=
  [ mkXmlChild "bounds" ∅ "<bounds />";
    mkXmlChild "node" {[ "id" := "1"; "lat" := "10"; "lon" := "10" ]}
               "<node id='1' lat='10' lon='10' />";
    mkXmlChild "node" {[ "id" := "2"; "lat" := "20"; "lon" := "20" ]}
               "<node id='2' lat='20' lon='20' />";
    mkXmlChild "way" {[ "id" := "7" ]} "<way id='7' />";
    mkXmlChild "node" {[ "id" := "3"; "lat" := "-10"; "lon" := "-10" ]}
               "<node id='3' lat='-10' lon='-10' />" ].

(** A ['node'] child without a latitude, and one whose latitude is no number. *)
Definition node_without_lat : XmlChild :=
  mkXmlChild "node" {[ "id" := "4"; "lon" := "10" ]} "<node id='4' lon='10' />".

Definition node_with_bad_lat : XmlChild :=
  mkXmlChild "node" {[ "id" := "5"; "lat" := "north" ]} "<node id='5' lat='north' />".


(** ** A rectangle whose midpoint overflows *)


(** * Properties *)

(** ** The result monad and the loop *)

Lemma bind_Ok_inv {A B : Type} (m : result A) (k : A -> result B) (b : B) :
  (m ≫= k) = Ok b -> exists a, m = Ok a /\ k a = Ok b.
Proof. destruct m; simpl; intros H; try discriminate. eauto. Qed.

Lemma for_each_app {A S : Type} (body : S -> A -> result S) (l1 l2 : list A) (s : S) :
  for_each body (l1 ++ l2) s = (for_each body l1 s ≫= for_each body l2).
Proof.
  revert s. induction l1 as [|x l1 IH]; intros s; simpl; [reflexivity|].
  destruct (body s x); simpl; auto.
Qed.

(** ** [add_2_child] follows the routing rule *)

Lemma add_2_child_with_quadrant addf f ll lr ul ur p :
  add_2_child_with addf (Internal f ll lr ul ur) p =
  (c' ← addf (child (quadrant (mid_lat f) (mid_lon f) p) ll lr ul ur) p;
   Ok (set_child (quadrant (mid_lat f) (mid_lon f) p) c' (Internal f ll lr ul ur))).
Proof.
  unfold quadrant; simpl.
  destruct (mid_lat f <=? lat p)%float, (mid_lon f <=? lon p)%float; simpl;
    destruct (addf _ p); reflexivity.
Qed.

Lemma routed_snoc_same mlat mlon q s p :
  quadrant mlat mlon p = q -> routed mlat mlon q (s ++ [p]) = routed mlat mlon q s ++ [p].
Proof.
  intros H. unfold routed. rewrite filter_app. f_equal.
  rewrite filter_cons_True by exact H. reflexivity.
Qed.

Lemma routed_snoc_other mlat mlon q s p :
  quadrant mlat mlon p <> q -> routed mlat mlon q (s ++ [p]) = routed mlat mlon q s.
Proof.
  intros H. unfold routed. rewrite filter_app.
  rewrite filter_cons_False by exact H. apply app_nil_r.
Qed.

(** One step of redistribution or delegation, for any family [P] of
    per-quadrant invariants that one [add] on a child maintains. *)
Lemma add_2_child_with_step (addf : QTNode -> OsmNodeWrapper -> result QTNode)
    (P : Quadrant -> list OsmNodeWrapper -> QTNode -> Prop) :
  (forall q s t p t', P q s t -> addf t p = Ok t' -> P q (s ++ [p]) t') ->
  forall f ll lr ul ur s p t',
    (forall q, P q (routed (mid_lat f) (mid_lon f) q s) (child q ll lr ul ur)) ->
    add_2_child_with addf (Internal f ll lr ul ur) p = Ok t' ->
    exists ll' lr' ul' ur',
      t' = Internal f ll' lr' ul' ur' /\
      forall q, P q (routed (mid_lat f) (mid_lon f) q (s ++ [p])) (child q ll' lr' ul' ur').
Proof.
  intros Hstep f ll lr ul ur s p t' HP Hadd.
  rewrite add_2_child_with_quadrant in Hadd.
  apply bind_Ok_inv in Hadd as (c' & Hc & Hret). injection Hret as <-.
  pose proof (Hstep _ _ _ _ _ (HP _) Hc) as Hc'.
  rewrite <- routed_snoc_same in Hc' by reflexivity.
  destruct (quadrant (mid_lat f) (mid_lon f) p) eqn:Hq; simpl in *;
    eexists _, _, _, _; (split; [reflexivity|]);
    intros q; destruct q; simpl; try exact Hc';
    rewrite routed_snoc_other by congruence;
    first [exact (HP SW) | exact (HP SE) | exact (HP NW) | exact (HP NE)].
Qed.

(** The loop of [split], for the same families of invariants. *)
Lemma for_each_add_2_child_with (addf : QTNode -> OsmNodeWrapper -> result QTNode)
    (P : Quadrant -> list OsmNodeWrapper -> QTNode -> Prop) :
  (forall q s t p t', P q s t -> addf t p = Ok t' -> P q (s ++ [p]) t') ->
  forall l f ll lr ul ur s t',
    (forall q, P q (routed (mid_lat f) (mid_lon f) q s) (child q ll lr ul ur)) ->
    for_each (add_2_child_with addf) l (Internal f ll lr ul ur) = Ok t' ->
    exists ll' lr' ul' ur',
      t' = Internal f ll' lr' ul' ur' /\
      forall q, P q (routed (mid_lat f) (mid_lon f) q (s ++ l)) (child q ll' lr' ul' ur').
Proof.
  intros Hstep l. induction l as [|x l IH]; intros f ll lr ul ur s t' HP Hloop.
  - simpl in Hloop. injection Hloop as <-. rewrite app_nil_r. eauto 6.
  - simpl in Hloop. apply bind_Ok_inv in Hloop as (t1 & H1 & Hloop).
    destruct (add_2_child_with_step addf P Hstep _ _ _ _ _ _ _ _ HP H1)
      as (ll1 & lr1 & ul1 & ur1 & -> & HP1).
    destruct (IH _ _ _ _ _ _ _ HP1 Hloop) as (ll' & lr' & ul' & ur' & -> & HP').
    exists ll', lr', ul', ur'. split; [reflexivity|].
    intros q. specialize (HP' q). rewrite <- app_assoc in HP'. exact HP'.
Qed.

(** ** Insertion builds the tree of the inserted sequence *)

Lemma add_S_Leaf n f p :
  add (S n) (Leaf f) p =
  if Z.of_nat (length (members f ++ [p])) >? max_members f
  then split n (Leaf (set_members f (members f ++ [p])))
  else Ok (Leaf (set_members f (members f ++ [p]))).
Proof. reflexivity. Qed.

Lemma add_S_Internal n f ll lr ul ur p :
  add (S n) (Internal f ll lr ul ur) p = add_2_child n (Internal f ll lr ul ur) p.
Proof. reflexivity. Qed.

Lemma split_Leaf n f :
  split n (Leaf f) =
  (self2 ← for_each (add_2_child n) (members f)
     (Internal (set_mids f ((max_lat f + min_lat f) / 2) ((max_lon f + min_lon f) / 2))
        (QTNode_init (min_lat f) ((max_lat f + min_lat f) / 2)
                     (min_lon f) ((min_lon f + max_lon f) / 2) (max_members f))
        (QTNode_init (min_lat f) ((max_lat f + min_lat f) / 2)
                     ((min_lon f + max_lon f) / 2) (max_lon f) (max_members f))
        (QTNode_init ((min_lat f + max_lat f) / 2) (max_lat f)
                     (min_lon f) ((min_lon f + max_lon f) / 2) (max_members f))
        (QTNode_init ((min_lat f + max_lat f) / 2) (max_lat f)
                     ((min_lon f + max_lon f) / 2) (max_lon f) (max_members f)));
   Ok (with_fields self2 (set_members (fields self2) []))).
Proof. reflexivity. Qed.


Lemma tree_of_children cap a b c d s ll lr ul ur :
  cap < Z.of_nat (length s) ->
  (forall q, child_tree_of cap a b c d q
               (routed ((b + a) / 2) ((d + c) / 2) q s) (child q ll lr ul ur)) ->
  tree_of cap a b c d s
    (Internal (mkQTFields [] a b ((b + a) / 2) c d ((d + c) / 2) cap) ll lr ul ur).
Proof.
  intros Hlen H. constructor; [exact Hlen| | | |].
  - exact (H SW).
  - exact (H SE).
  - exact (H NW).
  - exact (H NE).
Qed.

Lemma tree_of_cap_nonneg cap a b c d s t :
  tree_of cap a b c d s t -> 0 <= cap.
Proof. induction 1; [lia | assumption]. Qed.

Lemma add_tree_of (n : nat) :
  forall cap a b c d s t p t',
    tree_of cap a b c d s t ->
    add n t p = Ok t' ->
    tree_of cap a b c d (s ++ [p]) t'.
Proof.
  induction n as [|n IH]; intros cap a b c d s t p t' Ht Hadd; [discriminate|].
  assert (Hstep : forall q s t p t',
             child_tree_of cap a b c d q s t -> add n t p = Ok t' ->
             child_tree_of cap a b c d q (s ++ [p]) t').
  { intros [] ? ? ? ? H1 H2; simpl in *; eapply IH; eassumption. }
  pose proof (tree_of_cap_nonneg _ _ _ _ _ _ _ Ht) as Hcap.
  destruct Ht as [a b c d s Hlen | a b c d s ll lr ul ur Hlen Hll Hlr Hul Hur].
  - rewrite add_S_Leaf in Hadd. cbn [members max_members set_members] in Hadd.
    destruct (Z.of_nat (length (s ++ [p])) >? cap) eqn:Hgt.
    + rewrite split_Leaf in Hadd. cbn [members max_members min_lat max_lat min_lon max_lon] in Hadd.
      apply bind_Ok_inv in Hadd as (self2 & Hloop & Hret).
      eapply (for_each_add_2_child_with _ _ Hstep) with (s := []) in Hloop.
      * destruct Hloop as (ll & lr & ul & ur & -> & HP).
        simpl in Hret. injection Hret as <-.
        apply tree_of_children; [lia | exact HP].
      * intros []; simpl; apply tree_of_leaf; simpl; lia.
    + injection Hadd as <-. apply tree_of_leaf. lia.
  - rewrite add_S_Internal in Hadd.
    eapply (add_2_child_with_step _ _ Hstep) with (s := s) in Hadd.
    + destruct Hadd as (ll' & lr' & ul' & ur' & -> & HP).
      apply tree_of_children; [rewrite length_app; lia | exact HP].
    + intros []; simpl; assumption.
Qed.

Lemma QTNode_init_tree_of cap a b c d :
  0 <= cap -> tree_of cap a b c d [] (QTNode_init a b c d cap).
Proof. intros H. apply tree_of_leaf. simpl. lia. Qed.

Lemma add_all_tree_of (n : nat) :
  forall l cap a b c d s t t',
    tree_of cap a b c d s t ->
    add_all n t l = Ok t' ->
    tree_of cap a b c d (s ++ l) t'.
Proof.
  unfold add_all. induction l as [|x l IH]; intros cap a b c d s t t' Ht Hall.
  - simpl in Hall. injection Hall as <-. rewrite app_nil_r. exact Ht.
  - simpl in Hall. apply bind_Ok_inv in Hall as (t1 & H1 & Hall).
    replace (s ++ x :: l) with ((s ++ [x]) ++ l) by (rewrite <- app_assoc; reflexivity).
    eapply IH; [|exact Hall]. eapply add_tree_of; eassumption.
Qed.

(** ** Coincident points: unbounded recursion *)


Lemma quadrant_coincident mlat mlon p m :
  coincident p m -> quadrant mlat mlon m = quadrant mlat mlon p.
Proof. intros [Hlat Hlon]. unfold quadrant. rewrite Hlat, Hlon. reflexivity. Qed.

Lemma child_set_child q c f ll lr ul ur :
  exists ll' lr' ul' ur',
    set_child q c (Internal f ll lr ul ur) = Internal f ll' lr' ul' ur' /\
    child q ll' lr' ul' ur' = c.
Proof. destruct q; simpl; eauto 8. Qed.

(** A leaf below its capacity takes one more member without splitting, as
    soon as one call of [add] is allowed. *)
Lemma add_Leaf_room n f p :
  Z.of_nat (length (members f)) < max_members f ->
  add (S n) (Leaf f) p = Ok (Leaf (set_members f (members f ++ [p]))).
Proof.
  intros H. rewrite add_S_Leaf.
  destruct (Z.gtb_spec (Z.of_nat (length (members f ++ [p]))) (max_members f)) as [Hgt|Hle];
    [|reflexivity].
  rewrite length_app in Hgt. simpl in Hgt. lia.
Qed.

(** While the points come to rest at one and the same child, and there are
    more of them than that child can hold, the loop of [split] does not
    come to an end if [add] on a full leaf of coincident points does not. *)
Lemma for_each_coincident_OutOfFuel (n : nat) (p : OsmNodeWrapper) :
  (forall f x, coincident p x -> Forall (coincident p) (members f) ->
               max_members f <= Z.of_nat (length (members f)) ->
               add n (Leaf f) x = OutOfFuel) ->
  forall l f ll lr ul ur fc,
    Forall (coincident p) l ->
    child (quadrant (mid_lat f) (mid_lon f) p) ll lr ul ur = Leaf fc ->
    Forall (coincident p) (members fc) ->
    l <> [] ->
    max_members fc < Z.of_nat (length (members fc) + length l) ->
    for_each (add_2_child n) l (Internal f ll lr ul ur) = OutOfFuel.
Proof.
  intros Hfull l. induction l as [|x l IH]; intros f ll lr ul ur fc Hl Hc Hfc Hne Hlt.
  - congruence.
  - apply Forall_cons in Hl as [Hx Hl]. cbn [for_each].
    unfold add_2_child. rewrite add_2_child_with_quadrant.
    rewrite (quadrant_coincident _ _ _ _ Hx), Hc.
    destruct (Z_le_gt_dec (max_members fc) (Z.of_nat (length (members fc)))) as [Hfl|Hroom].
    + rewrite Hfull; [reflexivity | exact Hx | exact Hfc | exact Hfl].
    + destruct n as [|n]; [reflexivity|].
      rewrite add_Leaf_room by lia. cbn [mbind result_bind].
      destruct (child_set_child (quadrant (mid_lat f) (mid_lon f) p)
                  (Leaf (set_members fc (members fc ++ [x]))) f ll lr ul ur)
        as (ll' & lr' & ul' & ur' & -> & Hc').
      apply (IH _ _ _ _ _ _ Hl Hc'); cbn [members set_members max_members].
      * apply Forall_app. split; [exact Hfc | apply Forall_singleton; exact Hx].
      * intros ->. simpl in Hlt. lia.
      * rewrite length_app. simpl in *. lia.
Qed.

(** A leaf that is full of points with the coordinates of [p] never takes
    [p]: whatever depth of recursion is allowed, it does not suffice. *)
Lemma add_coincident_OutOfFuel (n : nat) :
  forall f p,
    Forall (coincident p) (members f) ->
    max_members f <= Z.of_nat (length (members f)) ->
    add n (Leaf f) p = OutOfFuel.
Proof.
  induction n as [|n IH]; intros f p Hco Hfull; [reflexivity|].
  rewrite add_S_Leaf.
  destruct (Z.gtb_spec (Z.of_nat (length (members f ++ [p]))) (max_members f)) as [Hgt|Hle].
  2:{ rewrite length_app in Hle. simpl in Hle. lia. }
  rewrite split_Leaf. cbn [members set_members min_lat max_lat min_lon max_lon max_members].
  assert (Hloop : forall f0 ll lr ul ur,
             (forall q, child q ll lr ul ur = 
                        Leaf (set_members (fields (child q ll lr ul ur)) [])) ->
             (forall q, max_members (fields (child q ll lr ul ur)) = max_members f) ->
             for_each (add_2_child n) (members f ++ [p]) (Internal f0 ll lr ul ur)
             = OutOfFuel).
  { intros f0 ll lr ul ur Hempty Hcap.
    eapply (for_each_coincident_OutOfFuel n p) with
      (fc := set_members (fields (child (quadrant (mid_lat f0) (mid_lon f0) p) ll lr ul ur)) []).
    - intros f1 x Hx Hf1 Hfull1. apply IH; [|exact Hfull1].
      eapply Forall_impl; [exact Hf1|]. intros m [H1 H2]. destruct Hx as [H3 H4].
      split; congruence.
    - apply Forall_app. split; [exact Hco|]. apply Forall_singleton. split; reflexivity.
    - apply Hempty.
    - simpl. constructor.
    - intros Hnil. apply app_eq_nil in Hnil as [_ Hnil]. discriminate.
    - simpl. rewrite Hcap. lia. }
  rewrite Hloop; [reflexivity | intros []; reflexivity | intros []; reflexivity].
Qed.

(** ** Floating-point facts used below *)

Lemma float_add_comm (x y : float) : (x + y)%float = (y + x)%float.
Proof.
  apply Prim2SF_inj. rewrite !add_spec. unfold SF64add, SFadd.
  destruct (Prim2SF x) as [sx|sx| |sx mx ex], (Prim2SF y) as [sy|sy| |sy my ey];
    try reflexivity; try (destruct sx, sy; reflexivity).
  rewrite (Z.min_comm ey ex). f_equal. apply Z.add_comm.
Qed.

Lemma SFleb_trans (u v w : spec_float) :
  SFleb u v = true -> SFleb v w = true -> SFleb u w = true.
Proof.
  unfold SFleb, SFcompare.
  destruct u as [su|su| |su mu eu], v as [sv|sv| |sv mv ev], w as [sw|sw| |sw mw ew];
    try (destruct su); try (destruct sv); try (destruct sw); try congruence.
  all: change (Pos.compare_cont Eq) with Pos.compare.
  all: destruct (Z.compare_spec eu ev), (Z.compare_spec ev ew), (Z.compare_spec eu ew);
    try lia; try congruence.
  all: destruct (Pos.compare_spec mu mv), (Pos.compare_spec mv mw), (Pos.compare_spec mu mw);
    simpl; try congruence; try lia.
Qed.

Lemma float_leb_trans (x y z : float) :
  (x <=? y)%float = true -> (y <=? z)%float = true -> (x <=? z)%float = true.
Proof. rewrite !leb_spec. apply SFleb_trans. Qed.

(** ** What a built tree holds *)

Lemma routed_partition mlat mlon s :
  routed mlat mlon SW s ++ routed mlat mlon SE s
    ++ routed mlat mlon NW s ++ routed mlat mlon NE s ≡ₚ s.
Proof.
  unfold routed. induction s as [|x s IH]; [reflexivity|].
  rewrite !filter_cons.
  destruct (quadrant mlat mlon x) eqn:Hq;
    repeat (case_decide; try congruence); clear Hq; cbn [app].
  - constructor. exact IH.
  - rewrite <- Permutation_middle. constructor. exact IH.
  - rewrite app_assoc, <- Permutation_middle, <- app_assoc. constructor. exact IH.
  - rewrite !app_assoc, <- Permutation_middle, <- !app_assoc. constructor. exact IH.
Qed.

Lemma tree_of_members cap a b c d s t :
  tree_of cap a b c d s t -> concat (map members (leaf_fields t)) ≡ₚ s.
Proof.
  induction 1 as [a b c d s Hlen
                 | a b c d s ll lr ul ur Hlen Hll IHll Hlr IHlr Hul IHul Hur IHur].
  - simpl. rewrite app_nil_r. reflexivity.
  - simpl. rewrite !map_app, !concat_app, IHll, IHlr, IHul, IHur.
    apply routed_partition.
Qed.

Lemma tree_of_capacity cap a b c d s t :
  tree_of cap a b c d s t ->
  Forall (fun f => Z.of_nat (length (members f)) <= cap /\ max_members f = cap)
         (leaf_fields t).
Proof.
  induction 1; simpl.
  - apply Forall_singleton. simpl. split; [assumption | reflexivity].
  - rewrite !Forall_app. auto.
Qed.

Lemma tree_of_internal_fields cap a b c d s t :
  tree_of cap a b c d s t ->
  Forall (fun f => members f = [] /\ max_members f = cap
                   /\ mid_lat f = ((min_lat f + max_lat f) / 2)%float
                   /\ mid_lon f = ((min_lon f + max_lon f) / 2)%float)
         (internal_fields t).
Proof.
  induction 1; simpl.
  - constructor.
  - constructor.
    + simpl. rewrite (float_add_comm a b), (float_add_comm c d). auto.
    + rewrite !Forall_app. auto.
Qed.

Lemma tree_of_sublist cap a b c d s t :
  tree_of cap a b c d s t ->
  Forall (fun f => members f `sublist_of` s) (leaf_fields t).
Proof.
  induction 1 as [a b c d s Hlen
                 | a b c d s ll lr ul ur Hlen Hll IHll Hlr IHlr Hul IHul Hur IHur];
    simpl.
  - apply Forall_singleton. reflexivity.
  - rewrite !Forall_app.
    repeat split;
      (eapply Forall_impl; [eassumption|]); intros f Hf;
      (etrans; [exact Hf|]); apply sublist_filter.
Qed.

Lemma tree_of_routed cap a b c d s t :
  tree_of cap a b c d s t ->
  forall p, p ∈ s ->
    exists f, subtree t (route t p) = Some (Leaf f) /\ p ∈ members f.
Proof.
  induction 1 as [a b c d s Hlen
                 | a b c d s ll lr ul ur Hlen Hll IHll Hlr IHlr Hul IHul Hur IHur];
    intros p Hp.
  - simpl. eexists. split; [reflexivity | exact Hp].
  - simpl. destruct (quadrant ((b + a) / 2) ((d + c) / 2) p) eqn:Hq; simpl;
      [apply IHll | apply IHlr | apply IHul | apply IHur];
      apply list_elem_of_filter; auto.
Qed.

(** ** The traversal *)

Lemma string_app_cons (ch : ascii) (s1 s2 : string) :
  String ch s1 +:+ s2 = String ch (s1 +:+ s2).
Proof. reflexivity. Qed.

Lemma string_app_assoc (s1 s2 s3 : string) :
  (s1 +:+ s2) +:+ s3 = s1 +:+ (s2 +:+ s3).
Proof.
  induction s1 as [|ch s1 IH]; [reflexivity|].
  rewrite !string_app_cons, IH. reflexivity.
Qed.

Lemma leaf_file_cons out_dir file_name q path ms :
  leaf_file out_dir (file_name +:+ code q) (path, ms)
  = leaf_file out_dir file_name (q :: path, ms).
Proof.
  unfold leaf_file. cbn [path_code fst snd]. rewrite !string_app_assoc. reflexivity.
Qed.

Lemma map_leaf_file_cons out_dir file_name q l :
  map (leaf_file out_dir file_name) (map (prod_map (cons q) id) l)
  = map (leaf_file out_dir (file_name +:+ code q)) l.
Proof.
  rewrite map_map. apply map_ext. intros [path ms]. symmetry. apply leaf_file_cons.
Qed.

Lemma write_leaves_node t :
  forall out_dir file_name, (write_leaves t out_dir file_name).1 = t.
Proof.
  induction t as [f | f ll IHll lr IHlr ul IHul ur IHur]; intros out_dir file_name.
  - simpl. destruct (members f); reflexivity.
  - simpl.
    specialize (IHll out_dir (file_name +:+ "SW")).
    specialize (IHlr out_dir (file_name +:+ "SE")).
    specialize (IHul out_dir (file_name +:+ "NW")).
    specialize (IHur out_dir (file_name +:+ "NE")).
    destruct (write_leaves ll _ _), (write_leaves lr _ _),
             (write_leaves ul _ _), (write_leaves ur _ _).
    simpl in *. congruence.
Qed.

Lemma write_leaves_files t :
  forall out_dir file_name,
    (write_leaves t out_dir file_name).2
    = map (leaf_file out_dir file_name) (enumerateLeaves t).
Proof.
  induction t as [f | f ll IHll lr IHlr ul IHul ur IHur]; intros out_dir file_name.
  - simpl. destruct (members f) eqn:Hm; simpl; [reflexivity|].
    reflexivity.
  - simpl.
    specialize (IHll out_dir (file_name +:+ "SW")).
    specialize (IHlr out_dir (file_name +:+ "SE")).
    specialize (IHul out_dir (file_name +:+ "NW")).
    specialize (IHur out_dir (file_name +:+ "NE")).
    destruct (write_leaves ll _ _), (write_leaves lr _ _),
             (write_leaves ul _ _), (write_leaves ur _ _).
    simpl in *. subst.
    rewrite !map_app, !map_leaf_file_cons. reflexivity.
Qed.

Lemma enumerateLeaves_members t :
  concat (map snd (enumerateLeaves t)) = concat (map members (leaf_fields t)).
Proof.
  induction t as [f | f ll IHll lr IHlr ul IHul ur IHur]; simpl.
  - destruct (members f); reflexivity.
  - rewrite !map_app, !concat_app, !map_map. simpl.
    rewrite <- IHll, <- IHlr, <- IHul, <- IHur. reflexivity.
Qed.

Lemma file_elements_leaf_file out_dir file_name leaf :
  file_elements (leaf_file out_dir file_name leaf)
  = map (fun m => tostring (node m)) leaf.2.
Proof.
  unfold file_elements, leaf_file, leaf_chunks. simpl.
  apply removelast_last.
Qed.

(** ** File names *)

Lemma code_app_inj q1 q2 r1 r2 :
  code q1 +:+ r1 = code q2 +:+ r2 -> q1 = q2 /\ r1 = r2.
Proof.
  destruct q1, q2; intros H; cbv [code String.append] in H;
    try discriminate H; injection H as ->; split; reflexivity.
Qed.

Lemma path_code_inj path1 :
  forall path2, path_code path1 = path_code path2 -> path1 = path2.
Proof.
  induction path1 as [|q1 path1 IH]; intros [|q2 path2] H; cbn [path_code] in H.
  - reflexivity.
  - destruct q2; discriminate H.
  - destruct q1; discriminate H.
  - apply code_app_inj in H as [-> H]. f_equal. apply IH. exact H.
Qed.

Lemma string_length_app (s1 s2 : string) :
  String.length (s1 +:+ s2) = (String.length s1 + String.length s2)%nat.
Proof.
  induction s1 as [|ch s1 IH]; [reflexivity|].
  rewrite string_app_cons. simpl. rewrite IH. reflexivity.
Qed.

Lemma string_app_inj_l (s x y : string) : s +:+ x = s +:+ y -> x = y.
Proof.
  induction s as [|ch s IH]; [intros H; exact H|].
  rewrite !string_app_cons. intros H. injection H as H. exact (IH H).
Qed.

Lemma string_app_inj_r (t : string) :
  forall x y : string, x +:+ t = y +:+ t -> x = y.
Proof.
  induction x as [|ch x IH]; intros [|ch' y] H.
  - reflexivity.
  - apply (f_equal String.length) in H. rewrite !string_length_app in H.
    simpl in H. lia.
  - apply (f_equal String.length) in H. rewrite !string_length_app in H.
    simpl in H. lia.
  - rewrite !string_app_cons in H. injection H as -> H. f_equal. exact (IH _ H).
Qed.

(** Whether the name of a leaf file is an absolute path does not depend on
    the path of the leaf. *)
Lemma leaf_name_prefix file_name path1 path2 :
  String.prefix "/" (file_name +:+ path_code path1 +:+ ".osm")
  = String.prefix "/" (file_name +:+ path_code path2 +:+ ".osm").
Proof.
  destruct file_name as [|ch file_name].
  - assert (H : forall path, String.prefix "/" ("" +:+ path_code path +:+ ".osm") = false).
    { intros [|[] path]; reflexivity. }
    rewrite !H. reflexivity.
  - assert (H : forall r, String.prefix "/" (String ch r)
                         = if ascii_dec "/" ch then true else false).
    { intros r. cbn [String.prefix].
      destruct (ascii_dec "/" ch); [destruct r; reflexivity | reflexivity]. }
    rewrite !string_app_cons, !H. reflexivity.
Qed.

Lemma os_path_join_inj a b1 b2 :
  String.prefix "/" b1 = String.prefix "/" b2 ->
  os_path_join a b1 = os_path_join a b2 -> b1 = b2.
Proof.
  unfold os_path_join. intros <-.
  destruct (String.prefix "/" b1); [intros H; exact H|].
  destruct (String.eqb a "" || endswith_sep a)%bool; intros H.
  - exact (string_app_inj_l _ _ _ H).
  - apply string_app_inj_l in H. exact (string_app_inj_l _ _ _ H).
Qed.

Lemma leaf_file_path_inj out_dir file_name leaf1 leaf2 :
  fw_path (leaf_file out_dir file_name leaf1)
  = fw_path (leaf_file out_dir file_name leaf2) ->
  leaf1.1 = leaf2.1.
Proof.
  unfold leaf_file. simpl. intros H.
  apply os_path_join_inj in H; [|apply leaf_name_prefix].
  apply string_app_inj_l in H. apply string_app_inj_r in H.
  apply path_code_inj. exact H.
Qed.

(** Distinct enumerated leaves have distinct paths. *)
Lemma enumerateLeaves_NoDup t : NoDup (map fst (enumerateLeaves t)).
Proof.
  assert (Hhead : forall q (l : list (list Quadrant * list OsmNodeWrapper)) path,
             path ∈ map fst (map (prod_map (cons q) id) l) ->
             exists path', path = q :: path').
  { intros q l path Hin. rewrite map_map in Hin.
    apply list_elem_of_fmap in Hin as ([path' pts] & -> & _). simpl. eauto. }
  assert (Hcons : forall q (l : list (list Quadrant * list OsmNodeWrapper)),
             NoDup (map fst l) ->
             NoDup (map fst (map (prod_map (cons q) id) l))).
  { intros q l Hl. rewrite map_map.
    rewrite (map_ext _ (fun leaf => q :: leaf.1)) by (intros []; reflexivity).
    rewrite <- (map_map fst (cons q)).
    apply (NoDup_fmap_2_strong (cons q)); [|exact Hl].
    intros x y _ _ H. injection H as ->. reflexivity. }
  induction t as [f | f ll IHll lr IHlr ul IHul ur IHur]; simpl.
  - destruct (members f); simpl; [constructor|].
    apply NoDup_singleton.
  - rewrite !map_app. rewrite !NoDup_app.
    repeat split; try (apply Hcons; assumption);
      intros path H1 H2;
      rewrite ?elem_of_app in H2;
      apply Hhead in H1 as (p1 & ->);
      repeat match type of H2 with _ \/ _ => destruct H2 as [H2|H2] end;
      apply Hhead in H2 as (p2 & H2); discriminate H2.
Qed.

(** The files that [write_leaves] writes have pairwise distinct paths: no
    leaf overwrites the file of another. *)
Lemma write_leaves_NoDup t out_dir file_name :
  NoDup (map fw_path (write_leaves t out_dir file_name).2).
Proof.
  rewrite write_leaves_files, map_map.
  pose proof (enumerateLeaves_NoDup t) as Hnd.
  induction (enumerateLeaves t) as [|leaf l IH]; simpl; [constructor|].
  simpl in Hnd. apply NoDup_cons in Hnd as [Hnotin Hnd].
  apply NoDup_cons. split; [|exact (IH Hnd)].
  intros Hin. apply Hnotin.
  apply list_elem_of_fmap in Hin as (leaf' & Heq & Hin').
  apply leaf_file_path_inj in Heq. rewrite Heq.
  apply list_elem_of_fmap. exists leaf'. split; [reflexivity | exact Hin'].
Qed.

(** ** Replaying the writes on a file system *)

Lemma run_io_lookup ws :
  forall (fs : gmap string (list string)) k,
    run_io ws fs !! k
    = match last_write k ws with Some v => Some v | None => fs !! k end.
Proof.
  unfold run_io. induction ws as [|w ws IH]; intros fs k; [reflexivity|].
  simpl. rewrite IH. destruct (last_write k ws); [reflexivity|].
  unfold run_write. case_decide as Hk.
  - subst k. apply lookup_insert_eq.
  - apply lookup_insert_ne. exact Hk.
Qed.

Lemma run_io_idempotent ws (fs : gmap string (list string)) :
  run_io ws (run_io ws fs) = run_io ws fs.
Proof.
  apply map_eq. intros k. rewrite !run_io_lookup.
  destruct (last_write k ws); reflexivity.
Qed.

Lemma last_write_Some k ws v :
  last_write k ws = Some v -> k ∈ map fw_path ws.
Proof.
  revert v. induction ws as [|w ws IH]; intros v; simpl; [discriminate|].
  destruct (last_write k ws) as [v'|].
  - intros _. apply elem_of_cons. right. apply (IH v'). reflexivity.
  - case_decide as Hk; [|discriminate].
    intros _. rewrite Hk. apply elem_of_cons. left. reflexivity.
Qed.

Lemma last_write_NoDup ws :
  NoDup (map fw_path ws) ->
  forall w, w ∈ ws -> last_write (fw_path w) ws = Some (fw_chunks w).
Proof.
  induction ws as [|w0 ws IH]; intros Hnd w Hin; [inversion Hin|].
  simpl in Hnd. apply NoDup_cons in Hnd as [Hnotin Hnd].
  apply elem_of_cons in Hin as [->|Hin]; simpl.
  - destruct (last_write (fw_path w0) ws) eqn:Hlast.
    + exfalso. apply Hnotin. exact (last_write_Some _ _ _ Hlast).
    + case_decide; [reflexivity | congruence].
  - rewrite (IH Hnd w Hin). reflexivity.
Qed.

(** After the files of a traversal are written, each of them is on the
    file system with the content written for its leaf. *)
Lemma run_io_write_leaves t out_dir file_name (fs : gmap string (list string)) :
  forall w, w ∈ (write_leaves t out_dir file_name).2 ->
    run_io (write_leaves t out_dir file_name).2 fs !! fw_path w = Some (fw_chunks w).
Proof.
  intros w Hin. rewrite run_io_lookup.
  rewrite (last_write_NoDup _ (write_leaves_NoDup t out_dir file_name) w Hin).
  reflexivity.
Qed.

(** ** Insertion into a fresh root *)

Lemma add_empty_leaf_OutOfFuel n f p :
  members f = [] -> max_members f <= 0 -> add n (Leaf f) p = OutOfFuel.
Proof.
  intros Hm Hcap. apply add_coincident_OutOfFuel; rewrite Hm; [constructor | simpl; lia].
Qed.

(** A sequence of insertions into a fresh root that returns either is empty
    or has built the tree of the sequence, and then the capacity is
    positive. *)
Lemma add_all_init_inv fuel a b c d cap nodes t :
  add_all fuel (QTNode_init a b c d cap) nodes = Ok t ->
  (nodes = [] /\ t = QTNode_init a b c d cap)
  \/ (nodes <> [] /\ 0 < cap /\ tree_of cap a b c d nodes t).
Proof.
  intros Hall. destruct nodes as [|x nodes].
  - left. injection Hall as <-. split; reflexivity.
  - right. split; [discriminate|].
    destruct (Z_le_gt_dec cap 0) as [Hle|Hgt].
    + unfold add_all in Hall. cbn [for_each] in Hall.
      unfold QTNode_init in Hall.
      rewrite add_empty_leaf_OutOfFuel in Hall by (simpl; auto).
      discriminate.
    + split; [lia|].
      eapply (add_all_tree_of fuel (x :: nodes) cap a b c d []); [|exact Hall].
      apply QTNode_init_tree_of. lia.
Qed.

Lemma length_concat_map {A B : Type} (g : A -> list B) (l : list A) :
  length (concat (map g l)) = sum_list_with (fun x => length (g x)) l.
Proof.
  induction l as [|x l IH]; simpl; [reflexivity|].
  rewrite length_app, IH. reflexivity.
Qed.

(** ** When insertion returns *)

Lemma tree_of_deterministic cap a b c d s t1 :
  tree_of cap a b c d s t1 -> forall t2, tree_of cap a b c d s t2 -> t1 = t2.
Proof.
  induction 1 as [a b c d s Hlen
                 | a b c d s ll lr ul ur Hlen Hll IHll Hlr IHlr Hul IHul Hur IHur];
    intros t2 H2; inversion H2; subst; try lia.
  - reflexivity.
  - f_equal; [apply IHll | apply IHlr | apply IHul | apply IHur]; assumption.
Qed.

Lemma child_tree_of_deterministic cap a b c d q s t1 t2 :
  child_tree_of cap a b c d q s t1 -> child_tree_of cap a b c d q s t2 -> t1 = t2.
Proof. destruct q; simpl; intros H1 H2; exact (tree_of_deterministic _ _ _ _ _ _ _ H1 _ H2). Qed.

(** A sequence that has a tree leaves a tree to each of its prefixes, and
    one that is not deeper. *)
Lemma tree_of_prefix cap a b c d s' t' :
  tree_of cap a b c d s' t' ->
  forall s k, s' = s ++ k ->
    exists t, tree_of cap a b c d s t /\ (depth t <= depth t')%nat.
Proof.
  induction 1 as [a b c d s' Hlen
                 | a b c d s' ll lr ul ur Hlen Hll IHll Hlr IHlr Hul IHul Hur IHur];
    intros s k ->.
  - eexists. split; [apply tree_of_leaf|simpl; lia].
    rewrite length_app in Hlen. lia.
  - destruct (Z_le_gt_dec (Z.of_nat (length s)) cap) as [Hfit|Hover].
    + eexists. split; [apply tree_of_leaf; exact Hfit | simpl; lia].
    + unfold routed in *.
      destruct (IHll _ _ (filter_app _ _ _)) as (ll0 & Hll0 & Dll).
      destruct (IHlr _ _ (filter_app _ _ _)) as (lr0 & Hlr0 & Dlr).
      destruct (IHul _ _ (filter_app _ _ _)) as (ul0 & Hul0 & Dul).
      destruct (IHur _ _ (filter_app _ _ _)) as (ur0 & Hur0 & Dur).
      eexists. split; [apply tree_of_internal; [lia|eassumption..]|].
      simpl. lia.
Qed.

Lemma child_tree_of_prefix cap a b c d q s k t' :
  child_tree_of cap a b c d q (s ++ k) t' ->
  exists t, child_tree_of cap a b c d q s t /\ (depth t <= depth t')%nat.
Proof.
  destruct q; simpl; intros H; exact (tree_of_prefix _ _ _ _ _ _ _ H _ _ eq_refl).
Qed.

(** One step of delegation or redistribution towards given children, when
    [add] reaches the tree of the longer sequence within the depth [n]. *)
Lemma add_2_child_complete (n : nat) cap a b c d :
  (forall q s t p t',
      child_tree_of cap a b c d q s t ->
      child_tree_of cap a b c d q (s ++ [p]) t' ->
      (depth t' < n)%nat ->
      add n t p = Ok t') ->
  forall f ll lr ul ur s p ll' lr' ul' ur',
    (forall q, child_tree_of cap a b c d q
                 (routed (mid_lat f) (mid_lon f) q s) (child q ll lr ul ur)) ->
    (forall q, child_tree_of cap a b c d q
                 (routed (mid_lat f) (mid_lon f) q (s ++ [p])) (child q ll' lr' ul' ur')) ->
    (forall q, (depth (child q ll' lr' ul' ur') < n)%nat) ->
    add_2_child n (Internal f ll lr ul ur) p = Ok (Internal f ll' lr' ul' ur').
Proof.
  intros Hadd f ll lr ul ur s p ll' lr' ul' ur' H0 H1 Hd.
  unfold add_2_child. rewrite add_2_child_with_quadrant.
  assert (Hsame : forall q, quadrant (mid_lat f) (mid_lon f) p <> q ->
                            child q ll lr ul ur = child q ll' lr' ul' ur').
  { intros q Hq. specialize (H1 q). rewrite routed_snoc_other in H1 by exact Hq.
    exact (child_tree_of_deterministic _ _ _ _ _ _ _ _ _ (H0 q) H1). }
  pose proof (H1 (quadrant (mid_lat f) (mid_lon f) p)) as Hq1.
  rewrite routed_snoc_same in Hq1 by reflexivity.
  rewrite (Hadd _ _ _ _ _ (H0 _) Hq1 (Hd _)). cbn [mbind result_bind].
  destruct (quadrant (mid_lat f) (mid_lon f) p) eqn:Hq; simpl; f_equal.
  - f_equal; [exact (Hsame SE ltac:(congruence)) | exact (Hsame NW ltac:(congruence))
             | exact (Hsame NE ltac:(congruence))].
  - f_equal; [exact (Hsame SW ltac:(congruence)) | exact (Hsame NW ltac:(congruence))
             | exact (Hsame NE ltac:(congruence))].
  - f_equal; [exact (Hsame SW ltac:(congruence)) | exact (Hsame SE ltac:(congruence))
             | exact (Hsame NE ltac:(congruence))].
  - f_equal; [exact (Hsame SW ltac:(congruence)) | exact (Hsame SE ltac:(congruence))
             | exact (Hsame NW ltac:(congruence))].
Qed.

Lemma for_each_add_2_child_complete (n : nat) cap a b c d :
  (forall q s t p t',
      child_tree_of cap a b c d q s t ->
      child_tree_of cap a b c d q (s ++ [p]) t' ->
      (depth t' < n)%nat ->
      add n t p = Ok t') ->
  forall l f ll lr ul ur s ll' lr' ul' ur',
    (forall q, child_tree_of cap a b c d q
                 (routed (mid_lat f) (mid_lon f) q s) (child q ll lr ul ur)) ->
    (forall q, child_tree_of cap a b c d q
                 (routed (mid_lat f) (mid_lon f) q (s ++ l)) (child q ll' lr' ul' ur')) ->
    (forall q, (depth (child q ll' lr' ul' ur') < n)%nat) ->
    for_each (add_2_child n) l (Internal f ll lr ul ur)
    = Ok (Internal f ll' lr' ul' ur').
Proof.
  intros Hadd l. induction l as [|x l IH];
    intros f ll lr ul ur s ll' lr' ul' ur' H0 H1 Hd.
  - simpl. do 2 f_equal.
    + specialize (H0 SW). specialize (H1 SW). rewrite app_nil_r in H1.
      exact (child_tree_of_deterministic _ _ _ _ _ _ _ _ _ H0 H1).
    + specialize (H0 SE). specialize (H1 SE). rewrite app_nil_r in H1.
      exact (child_tree_of_deterministic _ _ _ _ _ _ _ _ _ H0 H1).
    + specialize (H0 NW). specialize (H1 NW). rewrite app_nil_r in H1.
      exact (child_tree_of_deterministic _ _ _ _ _ _ _ _ _ H0 H1).
    + specialize (H0 NE). specialize (H1 NE). rewrite app_nil_r in H1.
      exact (child_tree_of_deterministic _ _ _ _ _ _ _ _ _ H0 H1).
  - assert (Hmid : forall q, exists m,
               child_tree_of cap a b c d q
                 (routed (mid_lat f) (mid_lon f) q (s ++ [x])) m
               /\ (depth m <= depth (child q ll' lr' ul' ur'))%nat).
    { intros q. specialize (H1 q).
      replace (s ++ x :: l) with ((s ++ [x]) ++ l) in H1
        by (rewrite <- app_assoc; reflexivity).
      unfold routed in H1. rewrite filter_app in H1.
      exact (child_tree_of_prefix _ _ _ _ _ _ _ _ _ H1). }
    destruct (Hmid SW) as (mll & Hmll & Dll). destruct (Hmid SE) as (mlr & Hmlr & Dlr).
    destruct (Hmid NW) as (mul & Hmul & Dul). destruct (Hmid NE) as (mur & Hmur & Dur).
    assert (Hm : forall q, child_tree_of cap a b c d q
                             (routed (mid_lat f) (mid_lon f) q (s ++ [x]))
                             (child q mll mlr mul mur))
      by (intros []; assumption).
    cbn [for_each].
    rewrite (add_2_child_complete n cap a b c d Hadd f ll lr ul ur s x mll mlr mul mur H0 Hm).
    + cbn [mbind result_bind]. apply (IH f mll mlr mul mur (s ++ [x])); [exact Hm| |exact Hd].
      intros q. rewrite <- app_assoc. exact (H1 q).
    + intros q. specialize (Hd q). destruct q; simpl in *; lia.
Qed.

(** Completeness of [add]: from the tree of a sequence it reaches the tree of
    the sequence extended by one point, as soon as the depth of recursion
    allowed exceeds the depth of that tree. *)
Lemma add_complete (n : nat) :
  forall cap a b c d s t p t',
    tree_of cap a b c d s t ->
    tree_of cap a b c d (s ++ [p]) t' ->
    (depth t' < n)%nat ->
    add n t p = Ok t'.
Proof.
  induction n as [|n IH]; intros cap a b c d s t p t' Ht Ht' Hd; [lia|].
  assert (Hadd : forall q s t p t',
             child_tree_of cap a b c d q s t ->
             child_tree_of cap a b c d q (s ++ [p]) t' ->
             (depth t' < n)%nat ->
             add n t p = Ok t').
  { intros [] ? ? ? ? H1 H2 H3; simpl in *; eapply IH; eassumption. }
  pose proof (tree_of_cap_nonneg _ _ _ _ _ _ _ Ht) as Hcap.
  destruct Ht as [a b c d s Hlen | a b c d s ll lr ul ur Hlen Hll Hlr Hul Hur].
  - rewrite add_S_Leaf. cbn [members set_members max_members].
    inversion Ht' as [? ? ? ? ? Hlen' | ? ? ? ? ? ll' lr' ul' ur' Hlen' Hll' Hlr' Hul' Hur'];
      subst.
    + destruct (Z.gtb_spec (Z.of_nat (length (s ++ [p]))) cap); [lia | reflexivity].
    + destruct (Z.gtb_spec (Z.of_nat (length (s ++ [p]))) cap); [|lia].
      rewrite split_Leaf. cbn [members set_members max_members min_lat max_lat min_lon max_lon].
      rewrite (for_each_add_2_child_complete n cap a b c d Hadd (s ++ [p]) _ _ _ _ _ []
                 ll' lr' ul' ur').
      * reflexivity.
      * intros []; simpl; apply tree_of_leaf; simpl; lia.
      * intros []; simpl; assumption.
      * intros []; simpl in *; lia.
  - rewrite add_S_Internal.
    inversion Ht' as [? ? ? ? ? Hlen' | ? ? ? ? ? ll' lr' ul' ur' Hlen' Hll' Hlr' Hul' Hur'];
      subst.
    + rewrite length_app in Hlen'. lia.
    + apply (add_2_child_complete n cap a b c d Hadd _ ll lr ul ur s p ll' lr' ul' ur').
      * intros []; simpl; assumption.
      * intros []; simpl; assumption.
      * intros []; simpl in *; lia.
Qed.

Lemma add_all_complete cap a b c d :
  forall l s t0 t,
    tree_of cap a b c d s t0 ->
    tree_of cap a b c d (s ++ l) t ->
    forall n, (depth t < n)%nat -> add_all n t0 l = Ok t.
Proof.
  unfold add_all. induction l as [|x l IH]; intros s t0 t H0 Ht n Hn.
  - rewrite app_nil_r in Ht. simpl. f_equal.
    exact (tree_of_deterministic _ _ _ _ _ _ _ H0 _ Ht).
  - replace (s ++ x :: l) with ((s ++ [x]) ++ l) in Ht
      by (rewrite <- app_assoc; reflexivity).
    destruct (tree_of_prefix _ _ _ _ _ _ _ Ht _ _ eq_refl) as (t1 & Ht1 & Hd1).
    cbn [for_each]. rewrite (add_complete n _ _ _ _ _ _ _ _ _ H0 Ht1) by lia.
    cbn [mbind result_bind]. exact (IH _ _ _ Ht1 Ht n Hn).
Qed.

(** Insertion of a sequence into a fresh root with a capacity that is not
    negative returns exactly when the sequence has a tree, and then it
    returns that tree, for every allowed depth of recursion beyond the depth
    of the tree. *)
Lemma add_all_returns_iff cap a b c d nodes t :
  0 <= cap ->
  (exists fuel, add_all fuel (QTNode_init a b c d cap) nodes = Ok t)
  <-> tree_of cap a b c d nodes t.
Proof.
  intros Hcap. split.
  - intros [fuel Hall].
    exact (add_all_tree_of fuel nodes cap a b c d [] _ _
             (QTNode_init_tree_of cap a b c d Hcap) Hall).
  - intros Ht. exists (S (depth t)).
    apply (add_all_complete cap a b c d nodes [] _ _
             (QTNode_init_tree_of cap a b c d Hcap) Ht). lia.
Qed.

(** What insertion returns does not depend on the depth of recursion that
    is allowed, beyond the depth of the tree returned. *)
Lemma add_all_stable fuel a b c d cap nodes t :
  add_all fuel (QTNode_init a b c d cap) nodes = Ok t ->
  forall fuel', (depth t < fuel')%nat ->
    add_all fuel' (QTNode_init a b c d cap) nodes = Ok t.
Proof.
  intros Hall fuel' Hd.
  destruct (add_all_init_inv _ _ _ _ _ _ _ _ Hall) as [[-> ->] | (_ & Hcap & Ht)].
  - reflexivity.
  - apply (add_all_complete cap a b c d nodes [] _ _
             (QTNode_init_tree_of cap a b c d ltac:(lia)) Ht). exact Hd.
Qed.

(** ** Insertion raises nothing *)

Lemma add_2_child_with_no_AttributeError addf :
  (forall t p, addf t p <> AttributeError) ->
  forall f ll lr ul ur p,
    add_2_child_with addf (Internal f ll lr ul ur) p <> AttributeError.
Proof.
  intros Haddf f ll lr ul ur p. rewrite add_2_child_with_quadrant.
  specialize (Haddf (child (quadrant (mid_lat f) (mid_lon f) p) ll lr ul ur) p).
  destruct (addf _ p); simpl; congruence.
Qed.

Lemma for_each_add_2_child_no_AttributeError addf :
  (forall t p, addf t p <> AttributeError) ->
  forall l f ll lr ul ur,
    for_each (add_2_child_with addf) l (Internal f ll lr ul ur) <> AttributeError.
Proof.
  intros Haddf l. induction l as [|x l IH]; intros f ll lr ul ur; [discriminate|].
  cbn [for_each].
  pose proof (add_2_child_with_no_AttributeError addf Haddf f ll lr ul ur x) as Hx.
  destruct (add_2_child_with addf (Internal f ll lr ul ur) x) as [t1| |] eqn:H1;
    [|congruence|discriminate].
  destruct (add_2_child_with_step addf (fun _ _ _ => True)
              (fun _ _ _ _ _ _ _ => I) f ll lr ul ur [] x t1 (fun _ => I) H1)
    as (ll' & lr' & ul' & ur' & -> & _).
  cbn [mbind result_bind]. apply IH.
Qed.

Lemma split_with_no_AttributeError addf :
  (forall t p, addf t p <> AttributeError) ->
  forall self, split_with addf self <> AttributeError.
Proof.
  intros Haddf self. unfold split_with.
  match goal with
  | |- (for_each _ ?l (Internal ?f ?a ?b ?c ?d) ≫= _) <> _ =>
      pose proof (for_each_add_2_child_no_AttributeError addf Haddf l f a b c d) as H;
      destruct (for_each (add_2_child_with addf) l (Internal f a b c d))
  end; simpl; congruence.
Qed.

Lemma add_no_AttributeError (n : nat) :
  forall t p, add n t p <> AttributeError.
Proof.
  induction n as [|n IH]; intros t p; [discriminate|].
  destruct t as [f | f ll lr ul ur].
  - rewrite add_S_Leaf.
    destruct (Z.of_nat (length (members f ++ [p])) >? max_members f); [|discriminate].
    apply split_with_no_AttributeError. exact IH.
  - rewrite add_S_Internal. apply add_2_child_with_no_AttributeError. exact IH.
Qed.

Lemma add_all_no_AttributeError n l :
  forall t, add_all n t l <> AttributeError.
Proof.
  unfold add_all. induction l as [|x l IH]; intros t; [discriminate|].
  cbn [for_each]. pose proof (add_no_AttributeError n t x) as Hx.
  destruct (add n t x); simpl; [apply IH | congruence | discriminate].
Qed.

(** * The claims *)

(** C1 (conservation), as the code has it.  Insertion into a freshly
    constructed root does not return on every finite input sequence.  It
    returns exactly on the sequences that bisection at the midpoints divides,
    after finitely many levels, into groups of at most [max_members]
    records, that is, on those that have a tree: then it returns that tree,
    whatever depth of recursion is allowed beyond the depth of the tree.
    Whenever insertion returns, the files that [write_leaves] then writes
    hold, between them, exactly the [N] inserted records: the member lists
    of the enumerated leaves are together a rearrangement of the input
    sequence, the serialised elements written are a rearrangement of the
    serialised input, and their number is [N]; no record is lost or
    duplicated by insertion, splitting or enumeration; the files have
    pairwise distinct paths, so that each of them is on the file system,
    with the content written for its leaf, when the traversal is over.  On
    every other non-empty sequence insertion never returns and raises
    nothing, so that nothing is enumerated. *)
Theorem conservation (a b c d : float) (cap : Z) (nodes : list OsmNodeWrapper) :
  (forall t,
      tree_of cap a b c d nodes t ->
      forall fuel, (depth t < fuel)%nat ->
        add_all fuel (QTNode_init a b c d cap) nodes = Ok t)
  /\ (forall fuel t,
         add_all fuel (QTNode_init a b c d cap) nodes = Ok t ->
         (nodes <> [] -> tree_of cap a b c d nodes t)
         /\ concat (map snd (enumerateLeaves t)) ≡ₚ nodes
         /\ (forall out_dir file_name,
               concat (map file_elements (write_leaves t out_dir file_name).2)
                 ≡ₚ map (fun m => tostring (node m)) nodes
               /\ sum_list_with (fun w => length (file_elements w))
                                (write_leaves t out_dir file_name).2
                  = length nodes
               /\ NoDup (map fw_path (write_leaves t out_dir file_name).2)
               /\ forall (fs : gmap string (list string)) w,
                    w ∈ (write_leaves t out_dir file_name).2 ->
                    run_io (write_leaves t out_dir file_name).2 fs !! fw_path w
                    = Some (fw_chunks w))
         /\ forall fuel', (depth t < fuel')%nat ->
              add_all fuel' (QTNode_init a b c d cap) nodes = Ok t)
  /\ (nodes <> [] ->
      (forall t, ~ tree_of cap a b c d nodes t) ->
      forall fuel, add_all fuel (QTNode_init a b c d cap) nodes = OutOfFuel).
Proof.
  split; [|split].
  - intros t Ht fuel Hfuel.
    pose proof (tree_of_cap_nonneg _ _ _ _ _ _ _ Ht) as Hcap.
    exact (add_all_complete cap a b c d nodes [] _ _
             (QTNode_init_tree_of cap a b c d Hcap) Ht fuel Hfuel).
  - intros fuel t Hall.
    assert (Hperm : concat (map snd (enumerateLeaves t)) ≡ₚ nodes).
    { rewrite enumerateLeaves_members.
      destruct (add_all_init_inv _ _ _ _ _ _ _ _ Hall) as [[-> ->] | (_ & _ & Ht)].
      - reflexivity.
      - eapply tree_of_members. exact Ht. }
    split; [|split; [exact Hperm|split]].
    + intros Hne.
      destruct (add_all_init_inv _ _ _ _ _ _ _ _ Hall) as [[-> _] | (_ & _ & Ht)];
        [congruence | exact Ht].
    + intros out_dir file_name.
      assert (Hfiles : concat (map file_elements (write_leaves t out_dir file_name).2)
                       ≡ₚ map (fun m => tostring (node m)) nodes).
      { rewrite write_leaves_files, map_map.
        rewrite (map_ext _ (fun leaf => map (fun m => tostring (node m)) leaf.2))
          by (intros leaf; apply file_elements_leaf_file).
        rewrite <- (map_map snd (map (fun m => tostring (node m)))).
        rewrite <- concat_map. rewrite Hperm. reflexivity. }
      split; [exact Hfiles|]. split; [|split].
      * rewrite <- length_concat_map. rewrite Hfiles. apply length_map.
      * apply write_leaves_NoDup.
      * intros fs w Hin. apply run_io_write_leaves. exact Hin.
    + exact (add_all_stable _ _ _ _ _ _ _ _ Hall).
  - intros Hne Hnone fuel.
    destruct (add_all fuel (QTNode_init a b c d cap) nodes) as [t| |] eqn:Hall.
    + exfalso.
      destruct (add_all_init_inv _ _ _ _ _ _ _ _ Hall) as [[-> _] | (_ & _ & Ht)];
        [congruence | exact (Hnone t Ht)].
    + exfalso. exact (add_all_no_AttributeError _ _ _ Hall).
    + reflexivity.
Qed.

Lemma conservation_witness :
  exists t,
    add_all 5 (globe 2) [p_10_10; p_20_20; p_m10_m10; p_0_0] = Ok t
    /\ depth t = 4%nat
    /\ tree_of 2 (-90) 90 (-180) 180 [p_10_10; p_20_20; p_m10_m10; p_0_0] t
    /\ add_all 1000 (globe 2) [p_10_10; p_20_20; p_m10_m10; p_0_0] = Ok t
    /\ concat (map snd (enumerateLeaves t)) ≡ₚ [p_10_10; p_20_20; p_m10_m10; p_0_0]
    /\ sum_list_with (fun w => length (file_elements w))
                     (write_leaves t "out" "root").2
       = 4%nat.
Proof.
  destruct (add_all 5 (globe 2) [p_10_10; p_20_20; p_m10_m10; p_0_0]) as [t| |] eqn:Hall;
    [|vm_compute in Hall; discriminate..].
  assert (Hdepth : depth t = 4%nat).
  { vm_compute in Hall. injection Hall as <-. reflexivity. }
  destruct (proj1 (proj2 (conservation (-90) 90 (-180) 180 2
                            [p_10_10; p_20_20; p_m10_m10; p_0_0])) 5%nat t Hall)
    as (Htree & Hperm & Hfiles & _).
  specialize (Htree ltac:(discriminate)).
  exists t. split; [reflexivity|]. split; [exact Hdepth|]. split; [exact Htree|].
  split.
  - apply (proj1 (conservation (-90) 90 (-180) 180 2
                    [p_10_10; p_20_20; p_m10_m10; p_0_0]) t Htree).
    rewrite Hdepth. lia.
  - split; [exact Hperm|]. exact (proj1 (proj2 (Hfiles "out" "root"))).
Defined.

(** ** Capacity *)

Lemma for_each_add_2_child_Internal addf l f ll lr ul ur t' :
  for_each (add_2_child_with addf) l (Internal f ll lr ul ur) = Ok t' ->
  exists ll' lr' ul' ur', t' = Internal f ll' lr' ul' ur'.
Proof.
  intros H.
  destruct (for_each_add_2_child_with addf (fun _ _ _ => True)
              (fun _ _ _ _ _ _ _ => I) l f ll lr ul ur [] t' (fun _ => I) H)
    as (ll' & lr' & ul' & ur' & -> & _).
  eauto.
Qed.

Lemma split_Ok_Internal n self t' :
  split n self = Ok t' ->
  exists ll lr ul ur,
    t' = Internal (mkQTFields [] (min_lat (fields self)) (max_lat (fields self))
                     ((max_lat (fields self) + min_lat (fields self)) / 2)
                     (min_lon (fields self)) (max_lon (fields self))
                     ((max_lon (fields self) + min_lon (fields self)) / 2)
                     (max_members (fields self)))
                  ll lr ul ur.
Proof.
  unfold split, split_with. intros H.
  apply bind_Ok_inv in H as (self2 & Hloop & Hret).
  apply for_each_add_2_child_Internal in Hloop as (ll & lr & ul & ur & ->).
  injection Hret as <-. simpl. eauto.
Qed.

(** One insertion into a leaf that is within its capacity: either the leaf
    stays within it, or the list of exactly one member too many is handed to
    [split], which, when it returns, has made the node internal and emptied
    its member list. *)
Lemma add_Leaf_transient n f p :
  Z.of_nat (length (members f)) <= max_members f ->
  (Z.of_nat (length (members f ++ [p])) <= max_members f
   /\ add (S n) (Leaf f) p = Ok (Leaf (set_members f (members f ++ [p]))))
  \/ (Z.of_nat (length (members f ++ [p])) = max_members f + 1
      /\ add (S n) (Leaf f) p = split n (Leaf (set_members f (members f ++ [p])))
      /\ forall t', split n (Leaf (set_members f (members f ++ [p]))) = Ok t' ->
                    is_leaf t' = false /\ members (fields t') = []).
Proof.
  intros Hle. rewrite add_S_Leaf.
  destruct (Z.gtb_spec (Z.of_nat (length (members f ++ [p]))) (max_members f)) as [Hgt|Hfit].
  - right. split; [rewrite length_app in *; simpl in *; lia|].
    split; [reflexivity|]. intros t' Hsplit.
    apply split_Ok_Internal in Hsplit as (ll & lr & ul & ur & ->).
    split; reflexivity.
  - left. split; [exact Hfit | reflexivity].
Qed.

(** C2 (capacity bound).  After each call of [add] that returns, that is,
    for every non-empty sequence of insertions into a fresh root that
    returns, every leaf reachable from the root carries the capacity of the
    root and holds at most that many members.  A leaf holds one member more
    than the capacity only inside a call: the next insertion into any such
    leaf either stays within the capacity or hands exactly [capacity + 1]
    members to [split], and when [split] returns the node is internal with
    an empty member list. *)
Theorem capacity_bound (fuel : nat) (a b c d : float) (cap : Z)
    (nodes : list OsmNodeWrapper) (t : QTNode) :
  nodes <> [] ->
  add_all fuel (QTNode_init a b c d cap) nodes = Ok t ->
  Forall (fun f =>
            max_members f = cap
            /\ Z.of_nat (length (members f)) <= cap
            /\ forall n p,
                (Z.of_nat (length (members f ++ [p])) <= cap
                 /\ add (S n) (Leaf f) p = Ok (Leaf (set_members f (members f ++ [p]))))
                \/ (Z.of_nat (length (members f ++ [p])) = cap + 1
                    /\ add (S n) (Leaf f) p
                       = split n (Leaf (set_members f (members f ++ [p])))
                    /\ forall t',
                        split n (Leaf (set_members f (members f ++ [p]))) = Ok t' ->
                        is_leaf t' = false /\ members (fields t') = []))
         (leaf_fields t).
Proof.
  intros Hne Hall.
  destruct (add_all_init_inv _ _ _ _ _ _ _ _ Hall) as [[-> _] | (_ & _ & Ht)];
    [congruence|].
  eapply Forall_impl; [exact (tree_of_capacity _ _ _ _ _ _ _ Ht)|].
  intros f [Hlen Hcap]. split; [exact Hcap|]. split; [exact Hlen|].
  intros n p. rewrite <- Hcap. apply add_Leaf_transient. lia.
Qed.

Lemma capacity_bound_witness :
  [p_10_10; p_20_20; p_m10_m10] <> []
  /\ add_all 2 (globe 2) [p_10_10; p_20_20; p_m10_m10] = Ok three_points_tree
  /\ Forall (fun f => max_members f = 2 /\ Z.of_nat (length (members f)) <= 2)
            (leaf_fields three_points_tree).
Proof.
  split; [discriminate|]. split; [reflexivity|].
  eapply Forall_impl.
  - apply (capacity_bound 2 (-90) 90 (-180) 180 2 [p_10_10; p_20_20; p_m10_m10]);
      [discriminate | reflexivity].
  - intros f (H1 & H2 & _). split; assumption.
Defined.

(** ** Coincident points and capacities that are not positive *)

Lemma coincident_trans p x m : coincident p x -> coincident p m -> coincident x m.
Proof. intros [H1 H2] [H3 H4]. split; congruence. Qed.

(** Insertions that the root leaf can hold leave it a leaf. *)
Lemma add_all_Leaf_room n nodes :
  forall f,
    Z.of_nat (length (members f) + length nodes) <= max_members f ->
    add_all (S n) (Leaf f) nodes = Ok (Leaf (set_members f (members f ++ nodes))).
Proof.
  unfold add_all. induction nodes as [|x nodes IH]; intros f Hle.
  - simpl. rewrite app_nil_r. destruct f; reflexivity.
  - cbn [for_each]. rewrite add_Leaf_room by (simpl in Hle; lia).
    cbn [mbind result_bind]. rewrite IH.
    + cbn [members set_members]. rewrite <- app_assoc. reflexivity.
    + cbn [members set_members max_members]. rewrite length_app. simpl in *. lia.
Qed.

(** More coincident points than a leaf has room for: the insertions never
    return. *)
Lemma add_all_coincident_OutOfFuel n p nodes :
  forall f,
    Forall (coincident p) (members f) ->
    Forall (coincident p) nodes ->
    nodes <> [] ->
    max_members f < Z.of_nat (length (members f) + length nodes) ->
    add_all n (Leaf f) nodes = OutOfFuel.
Proof.
  unfold add_all. induction nodes as [|x nodes IH]; intros f Hf Hnodes Hne Hlt;
    [congruence|].
  apply Forall_cons in Hnodes as [Hx Hnodes]. cbn [for_each].
  destruct (Z_le_gt_dec (max_members f) (Z.of_nat (length (members f)))) as [Hfull|Hroom].
  - rewrite add_coincident_OutOfFuel; [reflexivity| |exact Hfull].
    eapply Forall_impl; [exact Hf|]. intros m Hm. exact (coincident_trans _ _ _ Hx Hm).
  - destruct n as [|n]; [reflexivity|].
    rewrite add_Leaf_room by lia. cbn [mbind result_bind].
    apply IH; cbn [members set_members max_members].
    + apply Forall_app. split; [exact Hf | apply Forall_singleton; exact Hx].
    + exact Hnodes.
    + intros ->. simpl in Hlt. lia.
    + rewrite length_app. simpl in *. lia.
Qed.

(** C1, as the claim is worded: two records at the same location and
    capacity 1.  Insertion into the fresh root of [main] returns for no
    depth of recursion, and neither does [main]: there is no tree whose
    leaves could be enumerated, and the two records are never counted. *)
Lemma coincident_pair_is_never_enumerated :
  (~ exists (fuel : nat) (t : QTNode),
       add_all fuel (QTNode_init (-90) 90 (-180) 180 1) [p_0_0; p_0_0] = Ok t)
  /\ ~ exists (fuel : nat) (fs' : gmap string (list string)),
         main fuel [p_0_0; p_0_0] "out" 1 ∅ = Ok fs'.
Proof.
  assert (Hnever : forall fuel,
             add_all fuel (QTNode_init (-90) 90 (-180) 180 1) [p_0_0; p_0_0] = OutOfFuel).
  { intros fuel. unfold QTNode_init.
    apply (add_all_coincident_OutOfFuel fuel p_0_0); simpl;
      [constructor | repeat constructor | discriminate | lia]. }
  split.
  - intros (fuel & t & H). rewrite Hnever in H. discriminate.
  - intros (fuel & fs' & H). unfold main in H. rewrite Hnever in H. discriminate.
Qed.

(** C3 (degenerate split), as the code has it.  There is no maximum-depth
    guard: when a non-empty sequence of coincident points that is longer
    than the capacity is inserted into a fresh root, the insertion never
    returns.  Whatever depth of recursion is allowed, it is exceeded: no
    over-capacity leaf is kept and no error is raised. *)
Theorem coincident_overflow_never_returns (fuel : nat) (a b c d : float) (cap : Z)
    (p : OsmNodeWrapper) (nodes : list OsmNodeWrapper) :
  nodes <> [] ->
  Forall (coincident p) nodes ->
  cap < Z.of_nat (length nodes) ->
  add_all fuel (QTNode_init a b c d cap) nodes = OutOfFuel.
Proof.
  intros Hne Hco Hlt. unfold QTNode_init.
  apply (add_all_coincident_OutOfFuel fuel p); simpl; auto.
Qed.

Lemma coincident_overflow_never_returns_witness :
  replicate 5 p_0_0 <> []
  /\ Forall (coincident p_0_0) (replicate 5 p_0_0)
  /\ 1 < Z.of_nat (length (replicate 5 p_0_0))
  /\ add_all 1000 (globe 1) (replicate 5 p_0_0) = OutOfFuel.
Proof.
  assert (H1 : replicate 5 p_0_0 <> []) by discriminate.
  assert (H2 : Forall (coincident p_0_0) (replicate 5 p_0_0))
    by (repeat constructor).
  assert (H3 : 1 < Z.of_nat (length (replicate 5 p_0_0))) by (simpl; lia).
  split; [exact H1|]. split; [exact H2|]. split; [exact H3|].
  exact (coincident_overflow_never_returns 1000 (-90) 90 (-180) 180 1 p_0_0
           (replicate 5 p_0_0) H1 H2 H3).
Defined.

(** C3, the scenario as the claim states it: capacity 1 and five insertions
    of the point (0, 0) into the root (-90, 90, -180, 180).  The claim is
    that the insertion comes to an end, with an over-capacity leaf or with
    an error; it does not, for any bound on the depth of recursion. *)
Lemma five_coincident_points_never_return :
  ~ exists fuel : nat,
      add_all fuel (QTNode_init (-90) 90 (-180) 180 1)
              [p_0_0; p_0_0; p_0_0; p_0_0; p_0_0] <> OutOfFuel.
Proof.
  intros [fuel H]. apply H. unfold QTNode_init.
  apply (add_all_coincident_OutOfFuel fuel p_0_0); simpl;
    [constructor | repeat constructor | discriminate | lia].
Qed.

(** C4 (invalid capacity), as the code has it.  The constructor does not
    look at the capacity: for a capacity that is zero or negative it returns
    an empty leaf that carries this capacity, as for any other.  The first
    insertion into such a root then never returns, and neither does [main]
    on an input with at least one node. *)
Theorem nonpositive_capacity_accepted (a b c d : float) (cap : Z) :
  cap <= 0 ->
  QTNode_init a b c d cap
  = Leaf (mkQTFields [] a b ((a + b) / 2) c d ((c + d) / 2) cap)
  /\ (forall fuel p, add fuel (QTNode_init a b c d cap) p = OutOfFuel)
  /\ (forall fuel p nodes out_dir fs,
         main fuel (p :: nodes) out_dir cap fs = OutOfFuel).
Proof.
  intros Hcap. split; [reflexivity|].
  assert (Hadd : forall a b c d fuel p, add fuel (QTNode_init a b c d cap) p = OutOfFuel).
  { intros. apply add_empty_leaf_OutOfFuel; [reflexivity | exact Hcap]. }
  split; [apply Hadd|].
  intros fuel p nodes out_dir fs. unfold main, add_all. cbn [for_each].
  rewrite Hadd. reflexivity.
Qed.

Lemma nonpositive_capacity_accepted_witness :
  0 <= 0
  /\ (QTNode_init (-90) 90 (-180) 180 0
      = Leaf (mkQTFields [] (-90) 90 ((-90 + 90) / 2) (-180) 180 ((-180 + 180) / 2) 0)
      /\ (forall fuel p, add fuel (QTNode_init (-90) 90 (-180) 180 0) p = OutOfFuel)
      /\ (forall fuel p nodes out_dir fs,
             main fuel (p :: nodes) out_dir 0 fs = OutOfFuel)).
Proof.
  split; [lia|]. apply (nonpositive_capacity_accepted (-90) 90 (-180) 180 0). lia.
Defined.

(** C4, as the claim states it, at capacity 0: the claim is that the
    construction of the root is rejected with an error.  The constructor
    returns a leaf, and the program only fails to return later, at the first
    insertion. *)
Lemma zero_capacity_not_rejected :
  QTNode_init (-90) 90 (-180) 180 0 = Leaf (mkQTFields [] (-90) 90 0 (-180) 180 0 0)
  /\ ~ exists fuel : nat, main fuel [p_0_0] "out" 0 ∅ <> OutOfFuel.
Proof.
  split; [reflexivity|].
  intros [fuel H]. apply H. unfold main, add_all, QTNode_init. cbn [for_each].
  rewrite add_empty_leaf_OutOfFuel; [reflexivity | reflexivity | simpl; lia].
Qed.

(** ** Routing *)

Lemma quadrant_rule mlat mlon p :
  is_upper (quadrant mlat mlon p) = (mlat <=? lat p)%float
  /\ is_right (quadrant mlat mlon p) = (mlon <=? lon p)%float.
Proof.
  unfold quadrant.
  destruct (mlat <=? lat p)%float, (mlon <=? lon p)%float; split; reflexivity.
Qed.

Lemma Forall_internal_fields_midpoints fuel a b c d cap nodes t :
  add_all fuel (QTNode_init a b c d cap) nodes = Ok t ->
  Forall (fun f => mid_lat f = ((min_lat f + max_lat f) / 2)%float
                   /\ mid_lon f = ((min_lon f + max_lon f) / 2)%float)
         (internal_fields t).
Proof.
  intros Hall.
  destruct (add_all_init_inv _ _ _ _ _ _ _ _ Hall) as [[-> ->] | (_ & _ & Ht)].
  - constructor.
  - eapply Forall_impl; [exact (tree_of_internal_fields _ _ _ _ _ _ _ Ht)|].
    intros f (_ & _ & H1 & H2). split; assumption.
Qed.

Lemma add_all_routed fuel a b c d cap nodes t :
  add_all fuel (QTNode_init a b c d cap) nodes = Ok t ->
  forall p, p ∈ nodes ->
    exists f, subtree t (route t p) = Some (Leaf f) /\ p ∈ members f.
Proof.
  intros Hall p Hp.
  destruct (add_all_init_inv _ _ _ _ _ _ _ _ Hall) as [[-> ->] | (_ & _ & Ht)].
  - inversion Hp.
  - eapply tree_of_routed; eassumption.
Qed.

(** C5 (routing rule and its consistency).  At every internal node
    [add_2_child] hands the point to the child in the quadrant that the rule
    names: upper half exactly when the latitude is at least the middle
    latitude of the node, right half exactly when the longitude is at least
    its middle longitude, a point on a middle line going to the upper or
    right side.  Delegation at an internal node and redistribution in
    [split] both run this same [add_2_child].  Hence in a tree built by
    insertion the middle values of every internal node are the midpoints of
    its rectangle, and every inserted point, whether it was redistributed by
    later splits or not, lies in the leaf to which the rule leads from the
    root. *)
Theorem routing_rule :
  (forall addf f ll lr ul ur p,
      is_upper (quadrant (mid_lat f) (mid_lon f) p) = (mid_lat f <=? lat p)%float
      /\ is_right (quadrant (mid_lat f) (mid_lon f) p) = (mid_lon f <=? lon p)%float
      /\ add_2_child_with addf (Internal f ll lr ul ur) p
         = (c' ← addf (child (quadrant (mid_lat f) (mid_lon f) p) ll lr ul ur) p;
            Ok (set_child (quadrant (mid_lat f) (mid_lon f) p) c'
                          (Internal f ll lr ul ur))))
  /\ (forall n f ll lr ul ur p,
         add (S n) (Internal f ll lr ul ur) p
         = add_2_child n (Internal f ll lr ul ur) p)
  /\ (forall n self,
         exists self1,
           is_leaf self1 = false
           /\ split n self
              = (self2 ← for_each (add_2_child n) (members (fields self)) self1;
                 Ok (with_fields self2 (set_members (fields self2) []))))
  /\ (forall fuel a b c d cap nodes t,
         add_all fuel (QTNode_init a b c d cap) nodes = Ok t ->
         Forall (fun f => mid_lat f = ((min_lat f + max_lat f) / 2)%float
                          /\ mid_lon f = ((min_lon f + max_lon f) / 2)%float)
                (internal_fields t)
         /\ forall p, p ∈ nodes ->
              exists f, subtree t (route t p) = Some (Leaf f) /\ p ∈ members f).
Proof.
  split; [|split; [|split]].
  - intros addf f ll lr ul ur p.
    destruct (quadrant_rule (mid_lat f) (mid_lon f) p) as [H1 H2].
    split; [exact H1|]. split; [exact H2|]. apply add_2_child_with_quadrant.
  - intros. apply add_S_Internal.
  - intros n self. eexists (Internal _ _ _ _ _). split; reflexivity.
  - intros fuel a b c d cap nodes t Hall. split.
    + eapply Forall_internal_fields_midpoints. exact Hall.
    + eapply add_all_routed. exact Hall.
Qed.

Lemma routing_rule_witness :
  add_all 2 (globe 2) [p_10_10; p_20_20; p_m10_m10] = Ok three_points_tree
  /\ forall p, p ∈ [p_10_10; p_20_20; p_m10_m10] ->
       exists f, subtree three_points_tree (route three_points_tree p) = Some (Leaf f)
                 /\ p ∈ members f.
Proof.
  split; [reflexivity|].
  apply (proj2 (proj2 (proj2 (proj2 routing_rule))
                       2%nat (-90)%float 90%float (-180)%float 180%float 2
                       [p_10_10; p_20_20; p_m10_m10] three_points_tree eq_refl)).
Defined.

(** ** Enumeration *)

Lemma enumerateLeaves_subtree t :
  forall path pts,
    (path, pts) ∈ enumerateLeaves t ->
    pts <> [] /\ exists f, subtree t path = Some (Leaf f) /\ members f = pts.
Proof.
  induction t as [f | f ll IHll lr IHlr ul IHul ur IHur]; intros path pts Hin.
  - simpl in Hin. destruct (members f) as [|m ms] eqn:Hm; [inversion Hin|].
    apply list_elem_of_singleton in Hin. injection Hin as -> ->.
    split; [discriminate|]. exists f. split; [reflexivity | exact Hm].
  - simpl in Hin. rewrite !elem_of_app in Hin.
    destruct Hin as [Hin|[Hin|[Hin|Hin]]];
      apply list_elem_of_fmap in Hin as ([path' pts'] & Heq & Hin);
      simpl in Heq; injection Heq as -> ->; simpl; eauto.
Qed.

(** C6 (enumeration order and paths).  The files that [write_leaves] writes
    are, in this order, the files of the leaves that the enumeration of the
    specification yields: at every internal node the children are visited in
    the order SW, SE, NW, NE; a leaf without members writes nothing; a leaf
    with members writes one file whose name is the given file name, followed
    by the two-letter codes of the quadrant choices from the root to the
    leaf, followed by [.osm].  A root that is a leaf has the empty path,
    and so the bare file name.  Each enumerated path does lead to the leaf it
    is reported with, distinct paths have distinct codes, and the files of
    one traversal have pairwise distinct names. *)
Theorem enumeration_order_and_paths :
  (forall t out_dir file_name,
      (write_leaves t out_dir file_name).2
      = map (leaf_file out_dir file_name) (enumerateLeaves t))
  /\ (forall f ll lr ul ur out_dir file_name,
         (write_leaves (Internal f ll lr ul ur) out_dir file_name).2
         = (write_leaves ll out_dir (file_name +:+ "SW")).2
           ++ (write_leaves lr out_dir (file_name +:+ "SE")).2
           ++ (write_leaves ul out_dir (file_name +:+ "NW")).2
           ++ (write_leaves ur out_dir (file_name +:+ "NE")).2)
  /\ (forall f out_dir file_name,
         (write_leaves (Leaf f) out_dir file_name).2
         = if decide (members f = []) then []
           else [mkFileWrite (os_path_join out_dir (file_name +:+ ".osm"))
                             (leaf_chunks (members f))])
  /\ (forall t path pts,
         (path, pts) ∈ enumerateLeaves t ->
         pts <> [] /\ exists f, subtree t path = Some (Leaf f) /\ members f = pts)
  /\ (forall path1 path2, path_code path1 = path_code path2 -> path1 = path2)
  /\ (forall t out_dir file_name,
         NoDup (map fw_path (write_leaves t out_dir file_name).2)).
Proof.
  split; [|split; [|split; [|split; [|split]]]]; [| | | | |apply write_leaves_NoDup].
  - intros. apply write_leaves_files.
  - intros. simpl.
    destruct (write_leaves ll _ _), (write_leaves lr _ _),
             (write_leaves ul _ _), (write_leaves ur _ _). reflexivity.
  - intros. simpl. destruct (members f); reflexivity.
  - apply enumerateLeaves_subtree.
  - intros. apply path_code_inj. assumption.
Qed.

(** C9 (enumeration is read-only and repeatable).  [write_leaves] hands
    back the node it was called on unchanged, with its attributes, children
    and member lists; a second call therefore writes the same files with the
    same contents in the same order, the enumeration yields the same sequence
    of paths and member lists, and replaying the writes a second time leaves
    every file system as the first replay left it. *)
Theorem enumeration_idempotent (t : QTNode) (out_dir file_name : string) :
  (write_leaves t out_dir file_name).1 = t
  /\ (write_leaves (write_leaves t out_dir file_name).1 out_dir file_name).2
     = (write_leaves t out_dir file_name).2
  /\ enumerateLeaves (write_leaves t out_dir file_name).1 = enumerateLeaves t
  /\ forall fs : gmap string (list string),
       run_io (write_leaves t out_dir file_name).2
              (run_io (write_leaves t out_dir file_name).2 fs)
       = run_io (write_leaves t out_dir file_name).2 fs.
Proof.
  rewrite write_leaves_node.
  split; [reflexivity|]. split; [reflexivity|]. split; [reflexivity|].
  intros fs. apply run_io_idempotent.
Qed.

(** ** The rectangles of the children *)




(** A range is cut at a point between its ends into the part below the
    point and the part from the point on. *)
Lemma in_range_lower lo mid hi x :
  (mid <=? hi)%float = true ->
  in_range lo mid x = (in_range lo hi x && negb (mid <=? x)%float)%bool.
Proof.
  intros Hhi. unfold in_range.
  destruct (mid <=? x)%float eqn:Hm, (hi <=? x)%float eqn:Hh, (lo <=? x)%float;
    try reflexivity.
  rewrite (float_leb_trans _ _ _ Hhi Hh) in Hm. discriminate.
Qed.

Lemma in_range_upper lo mid hi x :
  (lo <=? mid)%float = true ->
  in_range mid hi x = (in_range lo hi x && (mid <=? x)%float)%bool.
Proof.
  intros Hlo. unfold in_range.
  destruct (mid <=? x)%float eqn:Hm, (hi <=? x)%float, (lo <=? x)%float eqn:Hl;
    try reflexivity.
  rewrite (float_leb_trans _ _ _ Hlo Hm) in Hl. discriminate.
Qed.


(** The quarters cover the rectangle: each of its points lies in the
    quarter to which it is routed. *)
Lemma quarter_covers a b c d p :
  in_rect (a, b, c, d) p = true ->
  in_rect (quarter (a, b, c, d) (quadrant ((a + b) / 2) ((c + d) / 2) p)) p = true.
Proof.
  unfold quarter, in_rect, in_range, quadrant.
  destruct (((a + b) / 2 <=? lat p)%float) eqn:Hm, (((c + d) / 2 <=? lon p)%float) eqn:Hn;
    rewrite ?Hm, ?Hn;
    destruct (a <=? lat p)%float, (b <=? lat p)%float,
             (c <=? lon p)%float, (d <=? lon p)%float;
    simpl; congruence.
Qed.

(** Where the midpoints lie between the ends, the quarters lie within the
    rectangle, and so tile it. *)
Lemma quarter_tiles a b c d p q :
  (a <=? (a + b) / 2)%float = true ->
  ((a + b) / 2 <=? b)%float = true ->
  (c <=? (c + d) / 2)%float = true ->
  ((c + d) / 2 <=? d)%float = true ->
  in_rect (quarter (a, b, c, d) q) p
  = (in_rect (a, b, c, d) p
     && bool_decide (quadrant ((a + b) / 2) ((c + d) / 2) p = q))%bool.
Proof.
  intros Hlat1 Hlat2 Hlon1 Hlon2. unfold quarter, in_rect.
  destruct q;
    rewrite ?(in_range_lower a _ b _ Hlat2), ?(in_range_upper a _ b _ Hlat1),
            ?(in_range_lower c _ d _ Hlon2), ?(in_range_upper c _ d _ Hlon1);
    unfold quadrant;
    destruct (((a + b) / 2 <=? lat p)%float), (((c + d) / 2 <=? lon p)%float);
    destruct (in_range a b (lat p)), (in_range c d (lon p)); reflexivity.
Qed.

(** The rectangles of the internal nodes of a built tree come from
    bisecting the rectangle of the root, within as many levels as the tree
    is deep. *)
Lemma bisections_mono d :
  forall d' lo hi i, (d <= d')%nat -> i ∈ bisections d lo hi -> i ∈ bisections d' lo hi.
Proof.
  induction d as [|d IH]; intros d' lo hi i Hd Hi.
  - simpl in Hi. apply list_elem_of_singleton in Hi as ->.
    destruct d'; simpl; apply elem_of_cons; left; reflexivity.
  - destruct d' as [|d']; [lia|]. simpl in Hi |- *.
    apply elem_of_cons in Hi as [->|Hi]; [apply elem_of_cons; left; reflexivity|].
    apply elem_of_cons. right. apply elem_of_app in Hi as [Hi|Hi]; apply elem_of_app;
      [left | right]; (apply IH; [lia | exact Hi]).
Qed.

Lemma tree_of_bisections cap a b c d s t :
  tree_of cap a b c d s t ->
  Forall (fun f => (min_lat f, max_lat f) ∈ bisections (depth t) a b
                   /\ (min_lon f, max_lon f) ∈ bisections (depth t) c d)
         (internal_fields t).
Proof.
  induction 1 as [a b c d s Hlen
                 | a b c d s ll lr ul ur Hlen Hll IHll Hlr IHlr Hul IHul Hur IHur].
  - constructor.
  - cbn [internal_fields depth]. constructor.
    + simpl. split; apply elem_of_cons; left; reflexivity.
    + rewrite (float_add_comm b a) in IHll, IHlr.
      rewrite !Forall_app. repeat split;
        (eapply Forall_impl; [eassumption|]); intros f [H1 H2]; cbn [bisections];
        split; apply elem_of_cons; right; apply elem_of_app.
      * left. apply (bisections_mono (depth ll)); [lia | exact H1].
      * left. apply (bisections_mono (depth ll)); [lia | exact H2].
      * left. apply (bisections_mono (depth lr)); [lia | exact H1].
      * right. apply (bisections_mono (depth lr)); [lia | exact H2].
      * right. apply (bisections_mono (depth ul)); [lia | exact H1].
      * left. apply (bisections_mono (depth ul)); [lia | exact H2].
      * right. apply (bisections_mono (depth ur)); [lia | exact H1].
      * right. apply (bisections_mono (depth ur)); [lia | exact H2].
Qed.

(** Down to sixteen levels below the root that [main] constructs, every
    computed midpoint lies between the ends of its interval. *)
Lemma globe_midpoints_between :
  forallb midpoint_between (bisections 16 (-90) 90) = true
  /\ forallb midpoint_between (bisections 16 (-180) 180) = true.
Proof. split; vm_compute; reflexivity. Qed.

Lemma globe_tree_midpoints_between fuel cap nodes t :
  add_all fuel (globe cap) nodes = Ok t ->
  (depth t <= 16)%nat ->
  Forall (fun f => midpoint_between (min_lat f, max_lat f) = true
                   /\ midpoint_between (min_lon f, max_lon f) = true)
         (internal_fields t).
Proof.
  intros Hall Hd.
  destruct (add_all_init_inv _ _ _ _ _ _ _ _ Hall) as [[-> ->] | (_ & _ & Ht)];
    [constructor|].
  destruct globe_midpoints_between as [Hlat Hlon].
  rewrite forallb_forall in Hlat, Hlon.
  eapply Forall_impl; [exact (tree_of_bisections _ _ _ _ _ _ _ Ht)|].
  intros f [H1 H2]. split.
  - apply Hlat. apply list_elem_of_In. exact (bisections_mono _ _ _ _ _ Hd H1).
  - apply Hlon. apply list_elem_of_In. exact (bisections_mono _ _ _ _ _ Hd H2).
Qed.




(** ** The scenario of three points *)

(** C8 (concrete scenario).  Root (-90, 90, -180, 180), capacity 2, and the
    points (10, 10), (20, 20), (-10, -10) inserted in this order.  After
    the first two insertions the root is still a leaf with two members; the
    third insertion returns a tree with exactly one internal node, the
    root, split at (0, 0), whose four children are leaves: (10, 10) and
    (20, 20) are in the NE child, (-10, -10) in the SW child, the other two
    are empty.  The enumeration yields exactly two leaves, SW with one point
    before NE with two, and [write_leaves] writes the two files in this
    order. *)
Theorem three_points_scenario :
  (forall n,
      add_all (S n) (globe 2) [p_10_10; p_20_20]
      = Ok (Leaf (mkQTFields [p_10_10; p_20_20] (-90) 90 0 (-180) 180 0 2)))
  /\ (forall n,
         add_all (S (S n)) (globe 2) [p_10_10; p_20_20; p_m10_m10]
         = Ok three_points_tree)
  /\ internal_fields three_points_tree = [mkQTFields [] (-90) 90 0 (-180) 180 0 2]
  /\ route three_points_tree p_10_10 = [NE]
  /\ route three_points_tree p_20_20 = [NE]
  /\ route three_points_tree p_m10_m10 = [SW]
  /\ enumerateLeaves three_points_tree
     = [([SW], [p_m10_m10]); ([NE], [p_10_10; p_20_20])]
  /\ (write_leaves three_points_tree "out" "root").2
     = [mkFileWrite "out/rootSW.osm" (leaf_chunks [p_m10_m10]);
        mkFileWrite "out/rootNE.osm" (leaf_chunks [p_10_10; p_20_20])].
Proof.
  split; [intros n; reflexivity|].
  split; [intros n; reflexivity|].
  repeat split; reflexivity.
Qed.

(** ** Order of the members *)

Lemma split_Leaf_children n f t :
  split n (Leaf f) = Ok t ->
  exists ll lr ul ur,
    t = Internal (mkQTFields [] (min_lat f) (max_lat f)
                    ((max_lat f + min_lat f) / 2)
                    (min_lon f) (max_lon f)
                    ((max_lon f + min_lon f) / 2) (max_members f))
                 ll lr ul ur
    /\ ((members f = []
         /\ forall q, exists fc, child q ll lr ul ur = Leaf fc /\ members fc = [])
        \/ forall q,
             child_tree_of (max_members f) (min_lat f) (max_lat f)
                           (min_lon f) (max_lon f) q
               (routed ((max_lat f + min_lat f) / 2) ((max_lon f + min_lon f) / 2)
                       q (members f))
               (child q ll lr ul ur)).
Proof.
  rewrite split_Leaf. intros H.
  apply bind_Ok_inv in H as (self2 & Hloop & Hret).
  destruct (Z_le_gt_dec 0 (max_members f)) as [Hcap|Hcap].
  - eapply (for_each_add_2_child_with (add n)
              (child_tree_of (max_members f) (min_lat f) (max_lat f)
                             (min_lon f) (max_lon f)))
      with (s := []) in Hloop.
    + destruct Hloop as (ll & lr & ul & ur & -> & HP).
      injection Hret as <-. simpl. eexists _, _, _, _. split; [reflexivity|].
      right. exact HP.
    + intros [] ? ? ? ? H1 H2; simpl in *; eapply add_tree_of; eassumption.
    + intros []; simpl; apply tree_of_leaf; simpl; lia.
  - destruct (members f) as [|x l] eqn:Hm.
    + simpl in Hloop. injection Hloop as <-. injection Hret as <-.
      simpl. eexists _, _, _, _. split; [reflexivity|].
      left. split; [reflexivity|]. intros []; simpl; eauto.
    + cbn [for_each] in Hloop. unfold add_2_child in Hloop.
      rewrite add_2_child_with_quadrant in Hloop.
      match type of Hloop with
      | context [add n ?c x] =>
          assert (Hc : add n c x = OutOfFuel)
            by (destruct (quadrant _ _ x); apply add_empty_leaf_OutOfFuel;
                simpl; solve [reflexivity | lia])
      end.
      rewrite Hc in Hloop. discriminate.
Qed.

Lemma child_tree_of_sublist cap a b c d q s t :
  child_tree_of cap a b c d q s t ->
  Forall (fun lf => members lf `sublist_of` s) (leaf_fields t)
  /\ concat (map members (leaf_fields t)) ≡ₚ s.
Proof.
  destruct q; simpl; intros H; split;
    solve [eapply tree_of_sublist; exact H | eapply tree_of_members; exact H].
Qed.

(** C10 (split preserves relative order).  When a leaf splits, the leaves
    below each child hold, together, exactly the members of the parent that
    the rule routes to that child, and each of them holds a subsequence of
    these, in the order of the parent's member list: two points that end up
    in the same member list are there in the order in which the parent held
    them.  By induction over the insertions, every leaf of a tree built by
    insertion holds a subsequence of the inserted sequence. *)
Theorem split_preserves_order :
  (forall n f t,
      split n (Leaf f) = Ok t ->
      exists ll lr ul ur,
        t = Internal (mkQTFields [] (min_lat f) (max_lat f)
                        ((max_lat f + min_lat f) / 2)
                        (min_lon f) (max_lon f)
                        ((max_lon f + min_lon f) / 2) (max_members f))
                     ll lr ul ur
        /\ forall q,
             Forall (fun lf =>
                       members lf `sublist_of`
                         routed ((max_lat f + min_lat f) / 2)
                                ((max_lon f + min_lon f) / 2) q (members f))
                    (leaf_fields (child q ll lr ul ur))
             /\ concat (map members (leaf_fields (child q ll lr ul ur)))
                  ≡ₚ routed ((max_lat f + min_lat f) / 2)
                            ((max_lon f + min_lon f) / 2) q (members f)
             /\ routed ((max_lat f + min_lat f) / 2)
                       ((max_lon f + min_lon f) / 2) q (members f)
                  `sublist_of` members f)
  /\ (forall fuel a b c d cap nodes t,
         add_all fuel (QTNode_init a b c d cap) nodes = Ok t ->
         Forall (fun lf => members lf `sublist_of` nodes) (leaf_fields t)).
Proof.
  split.
  - intros n f t Hsplit.
    apply split_Leaf_children in Hsplit as (ll & lr & ul & ur & -> & Hch).
    exists ll, lr, ul, ur. split; [reflexivity|]. intros q.
    destruct Hch as [[Hm Hempty] | Htree].
    + destruct (Hempty q) as (fc & -> & Hfc). rewrite Hm. simpl.
      split; [apply Forall_singleton; rewrite Hfc; apply sublist_nil_l|].
      rewrite Hfc. split; [reflexivity | apply sublist_nil_l].
    + destruct (child_tree_of_sublist _ _ _ _ _ _ _ _ (Htree q)) as [H1 H2].
      split; [exact H1|]. split; [exact H2|]. apply sublist_filter.
  - intros fuel a b c d cap nodes t Hall.
    destruct (add_all_init_inv _ _ _ _ _ _ _ _ Hall) as [[-> ->] | (_ & _ & Ht)].
    + apply Forall_singleton. reflexivity.
    + eapply tree_of_sublist. exact Ht.
Qed.

Lemma split_preserves_order_witness :
  add_all 2 (globe 2) [p_10_10; p_20_20; p_m10_m10] = Ok three_points_tree
  /\ Forall (fun lf => members lf `sublist_of` [p_10_10; p_20_20; p_m10_m10])
            (leaf_fields three_points_tree).
Proof.
  split; [reflexivity|].
  exact (proj2 split_preserves_order 2%nat (-90)%float 90%float (-180)%float 180%float
               2 [p_10_10; p_20_20; p_m10_m10] three_points_tree eq_refl).
Defined.

(** * Further properties of the code *)

(** ** No attribute of [None] is accessed *)

(** X1 (no [AttributeError] from insertion).  [add_2_child] called on a
    leaf accesses a child that is [None] and raises [AttributeError]; but
    [add] and [split] only ever call it on a node whose four children are
    set, so that no insertion, no split, no sequence of insertions and no
    run of [main] raises it, whatever the tree, the points and the
    capacity. *)
Theorem insertion_never_raises_AttributeError :
  (forall fuel f p, add_2_child fuel (Leaf f) p = AttributeError)
  /\ (forall fuel t p, add fuel t p <> AttributeError)
  /\ (forall fuel t, split fuel t <> AttributeError)
  /\ (forall fuel t nodes, add_all fuel t nodes <> AttributeError)
  /\ (forall fuel nodes out_dir max_nodes fs,
         main fuel nodes out_dir max_nodes fs <> AttributeError).
Proof.
  split; [reflexivity|]. split; [intros; apply add_no_AttributeError|].
  split; [intros; apply split_with_no_AttributeError, add_no_AttributeError|].
  split; [intros; apply add_all_no_AttributeError|].
  intros fuel nodes out_dir max_nodes fs. unfold main.
  pose proof (add_all_no_AttributeError fuel nodes
                (QTNode_init (-90) 90 (-180) 180 max_nodes)) as H.
  destruct (add_all fuel _ nodes); simpl; congruence.
Qed.

(** ** Splits happen only where they are needed *)

Lemma points_below_Internal f ll lr ul ur :
  points_below (Internal f ll lr ul ur)
  = (points_below ll + points_below lr + points_below ul + points_below ur)%nat.
Proof.
  unfold points_below. simpl. rewrite !map_app, !concat_app, !length_app. lia.
Qed.

Lemma tree_of_points_below cap a b c d s t :
  tree_of cap a b c d s t -> points_below t = length s.
Proof.
  intros Ht. unfold points_below.
  apply Permutation_length. eapply tree_of_members. exact Ht.
Qed.

Lemma tree_of_internal_nodes cap a b c d s t :
  tree_of cap a b c d s t ->
  Forall (fun n => members (fields n) = []
                   /\ max_members (fields n) = cap
                   /\ cap < Z.of_nat (points_below n))
         (internal_nodes t).
Proof.
  induction 1 as [a b c d s Hlen
                 | a b c d s ll lr ul ur Hlen Hll IHll Hlr IHlr Hul IHul Hur IHur].
  - constructor.
  - cbn [internal_nodes]. constructor.
    + split; [reflexivity|]. split; [reflexivity|].
      rewrite (tree_of_points_below cap a b c d s); [exact Hlen|].
      apply tree_of_internal; assumption.
    + rewrite !Forall_app. auto.
Qed.

(** X2 (no needless split, no members in internal nodes).  In a tree that
    insertion into a fresh root has built, every internal node has an empty
    member list and the capacity of the root, and the leaves below it hold,
    between them, more records than the capacity: a region is split only
    when its records do not fit one leaf. *)
Theorem internal_nodes_are_needed (fuel : nat) (a b c d : float) (cap : Z)
    (nodes : list OsmNodeWrapper) (t : QTNode) :
  add_all fuel (QTNode_init a b c d cap) nodes = Ok t ->
  Forall (fun n => members (fields n) = []
                   /\ max_members (fields n) = cap
                   /\ cap < Z.of_nat (points_below n))
         (internal_nodes t).
Proof.
  intros Hall.
  destruct (add_all_init_inv _ _ _ _ _ _ _ _ Hall) as [[-> ->] | (_ & _ & Ht)].
  - constructor.
  - eapply tree_of_internal_nodes. exact Ht.
Qed.

Lemma internal_nodes_are_needed_witness :
  add_all 2 (globe 2) [p_10_10; p_20_20; p_m10_m10] = Ok three_points_tree
  /\ Forall (fun n => members (fields n) = []
                      /\ max_members (fields n) = 2
                      /\ 2 < Z.of_nat (points_below n))
            (internal_nodes three_points_tree).
Proof.
  split; [reflexivity|].
  exact (internal_nodes_are_needed 2 (-90) 90 (-180) 180 2
           [p_10_10; p_20_20; p_m10_m10] three_points_tree eq_refl).
Defined.

(** ** Records and the rectangles of their leaves *)

Lemma tree_of_members_in_rect cap a b c d s t :
  tree_of cap a b c d s t ->
  Forall (fun f => forall m, m ∈ members f ->
                     m ∈ s /\ (in_rect (a, b, c, d) m = true ->
                               in_rect (bounds f) m = true))
         (leaf_fields t).
Proof.
  induction 1 as [a b c d s Hlen
                 | a b c d s ll lr ul ur Hlen Hll IHll Hlr IHlr Hul IHul Hur IHur].
  - apply Forall_singleton. intros m Hm. split; [exact Hm | intros H; exact H].
  - cbn [leaf_fields]. rewrite (float_add_comm b a) in *.
    rewrite (float_add_comm d c) in *.
    rewrite !Forall_app. repeat split;
      (eapply Forall_impl; [eassumption|]); intros f Hf m Hm;
      destruct (Hf m Hm) as [Hin Hrect];
      apply list_elem_of_filter in Hin as [Hq Hin];
      (split; [exact Hin|]); intros Hroot; apply Hrect;
      pose proof (quarter_covers a b c d m Hroot) as Hcov;
      rewrite Hq in Hcov; exact Hcov.
Qed.

(** X3 (every record lies in the rectangle of its leaf).  In a tree built
    by insertion into a fresh root, every member of every leaf is one of the
    inserted records, and if it lies in the region of the root's rectangle
    then it lies in the region of the rectangle of the leaf that holds it.
    This needs no assumption on the floating-point midpoints. *)
Theorem members_lie_in_their_leaf (fuel : nat) (a b c d : float) (cap : Z)
    (nodes : list OsmNodeWrapper) (t : QTNode) :
  add_all fuel (QTNode_init a b c d cap) nodes = Ok t ->
  Forall (fun f => forall m, m ∈ members f ->
                     m ∈ nodes /\ (in_rect (a, b, c, d) m = true ->
                                   in_rect (bounds f) m = true))
         (leaf_fields t).
Proof.
  intros Hall.
  destruct (add_all_init_inv _ _ _ _ _ _ _ _ Hall) as [[-> ->] | (_ & _ & Ht)].
  - apply Forall_singleton. intros m Hm. inversion Hm.
  - eapply tree_of_members_in_rect. exact Ht.
Qed.

Lemma members_lie_in_their_leaf_witness :
  add_all 2 (globe 2) [p_10_10; p_20_20; p_m10_m10] = Ok three_points_tree
  /\ Forall (fun f => forall m, m ∈ members f ->
                        m ∈ [p_10_10; p_20_20; p_m10_m10]
                        /\ (in_rect ((-90)%float, 90%float, (-180)%float, 180%float) m
                            = true ->
                            in_rect (bounds f) m = true))
            (leaf_fields three_points_tree).
Proof.
  split; [reflexivity|].
  exact (members_lie_in_their_leaf 2 (-90) 90 (-180) 180 2
           [p_10_10; p_20_20; p_m10_m10] three_points_tree eq_refl).
Defined.

(** ** The leaves partition the region of the root *)

Lemma midpoint_between_ends lo hi :
  midpoint_between (lo, hi) = true ->
  (lo <=? (lo + hi) / 2)%float = true /\ ((lo + hi) / 2 <=? hi)%float = true.
Proof. unfold midpoint_between. cbn [fst snd]. intros H. apply andb_true_iff. exact H. Qed.

Lemma tree_of_partition cap a b c d s t :
  tree_of cap a b c d s t ->
  Forall (fun g => midpoint_between (min_lat g, max_lat g) = true
                   /\ midpoint_between (min_lon g, max_lon g) = true)
         (internal_fields t) ->
  forall p path f,
    subtree t path = Some (Leaf f) ->
    in_rect (bounds f) p
    = (in_rect (a, b, c, d) p && bool_decide (route t p = path))%bool.
Proof.
  induction 1 as [a b c d s Hlen
                 | a b c d s ll lr ul ur Hlen Hll IHll Hlr IHlr Hul IHul Hur IHur];
    intros Hmid p path f Hsub.
  - destruct path as [|q path]; [|discriminate].
    injection Hsub as <-. cbn [route]. rewrite bool_decide_eq_true_2 by reflexivity.
    rewrite andb_true_r. reflexivity.
  - destruct path as [|q path]; [discriminate|].
    cbn [internal_fields] in Hmid. apply Forall_cons in Hmid as [[Hlat Hlon] Hmid].
    rewrite !Forall_app in Hmid. destruct Hmid as (Mll & Mlr & Mul & Mur).
    cbn [min_lat max_lat min_lon max_lon] in Hlat, Hlon.
    apply midpoint_between_ends in Hlat as [Hlat1 Hlat2].
    apply midpoint_between_ends in Hlon as [Hlon1 Hlon2].
    rewrite (float_add_comm b a) in *. rewrite (float_add_comm d c) in *.
    pose proof (quarter_tiles a b c d p q Hlat1 Hlat2 Hlon1 Hlon2) as Htile.
    cbn [subtree] in Hsub. cbn [route mid_lat mid_lon].
    destruct q; cbn [child] in Hsub;
      [rewrite (IHll Mll p path f Hsub) | rewrite (IHlr Mlr p path f Hsub)
      |rewrite (IHul Mul p path f Hsub) | rewrite (IHur Mur p path f Hsub)];
      cbn [quarter] in Htile; rewrite Htile;
      destruct (quadrant ((a + b) / 2) ((c + d) / 2) p) eqn:Hq;
      rewrite <- andb_assoc; f_equal;
      try (rewrite (bool_decide_eq_true_2 (_ = _)) by reflexivity; cbn [andb];
           apply bool_decide_ext; split; intros H; congruence);
      rewrite (bool_decide_eq_false_2 (_ = _)) by congruence; cbn [andb];
      symmetry; apply bool_decide_eq_false_2; congruence.
Qed.

(** X4 (the leaves partition the region of the root).  In a tree built by
    insertion in which, at every internal node, the computed midpoints lie
    between the ends of the rectangle, a location lies in the region of a
    leaf exactly when it lies in the region of the root and the routing rule
    leads from the root to that leaf: the regions of the leaves are pairwise
    disjoint and cover the region of the root, so that the files divide the
    area geographically.  For the root of [main] the condition on the
    midpoints holds in every tree of depth at most sixteen. *)
Theorem leaves_partition_the_root :
  (forall fuel a b c d cap nodes t,
      add_all fuel (QTNode_init a b c d cap) nodes = Ok t ->
      Forall (fun g => midpoint_between (min_lat g, max_lat g) = true
                       /\ midpoint_between (min_lon g, max_lon g) = true)
             (internal_fields t) ->
      forall p path f,
        subtree t path = Some (Leaf f) ->
        in_rect (bounds f) p
        = (in_rect (a, b, c, d) p && bool_decide (route t p = path))%bool)
  /\ (forall fuel cap nodes t,
         add_all fuel (globe cap) nodes = Ok t ->
         (depth t <= 16)%nat ->
         forall p path f,
           subtree t path = Some (Leaf f) ->
           in_rect (bounds f) p
           = (in_rect ((-90)%float, 90%float, (-180)%float, 180%float) p
              && bool_decide (route t p = path))%bool).
Proof.
  assert (Hgen : forall fuel a b c d cap nodes t,
             add_all fuel (QTNode_init a b c d cap) nodes = Ok t ->
             Forall (fun g => midpoint_between (min_lat g, max_lat g) = true
                              /\ midpoint_between (min_lon g, max_lon g) = true)
                    (internal_fields t) ->
             forall p path f,
               subtree t path = Some (Leaf f) ->
               in_rect (bounds f) p
               = (in_rect (a, b, c, d) p && bool_decide (route t p = path))%bool).
  { intros fuel a b c d cap nodes t Hall Hmid p path f Hsub.
    destruct (add_all_init_inv _ _ _ _ _ _ _ _ Hall) as [[-> ->] | (_ & Hcap & Ht)].
    - destruct path as [|q path]; [|discriminate].
      injection Hsub as <-. cbn [route QTNode_init].
      rewrite bool_decide_eq_true_2 by reflexivity.
      rewrite andb_true_r. reflexivity.
    - eapply tree_of_partition; eassumption. }
  split; [exact Hgen|].
  intros fuel cap nodes t Hall Hd p path f Hsub.
  eapply Hgen; [exact Hall| |exact Hsub].
  eapply globe_tree_midpoints_between; eassumption.
Qed.

Lemma leaves_partition_the_root_witness :
  add_all 2 (globe 2) [p_10_10; p_20_20; p_m10_m10] = Ok three_points_tree
  /\ (depth three_points_tree <= 16)%nat
  /\ forall p path f,
       subtree three_points_tree path = Some (Leaf f) ->
       in_rect (bounds f) p
       = (in_rect ((-90)%float, 90%float, (-180)%float, 180%float) p
          && bool_decide (route three_points_tree p = path))%bool.
Proof.
  assert (Hd : (depth three_points_tree <= 16)%nat) by (simpl; lia).
  split; [reflexivity|]. split; [exact Hd|].
  exact (proj2 leaves_partition_the_root 2%nat 2 [p_10_10; p_20_20; p_m10_m10]
               three_points_tree eq_refl Hd).
Defined.

(** ** The order of the input *)

Lemma same_shape_depth t1 :
  forall t2, same_shape t1 t2 -> depth t1 = depth t2.
Proof.
  induction t1 as [f1 | f1 ll1 IHll lr1 IHlr ul1 IHul ur1 IHur];
    intros [f2 | f2 ll2 lr2 ul2 ur2] H; simpl in H; try contradiction.
  - reflexivity.
  - destruct H as (_ & Hll & Hlr & Hul & Hur). simpl.
    rewrite (IHll _ Hll), (IHlr _ Hlr), (IHul _ Hul), (IHur _ Hur). reflexivity.
Qed.

Lemma tree_of_Permutation cap a b c d s t :
  tree_of cap a b c d s t ->
  forall s', s ≡ₚ s' ->
    exists t', tree_of cap a b c d s' t' /\ same_shape t t'.
Proof.
  induction 1 as [a b c d s Hlen
                 | a b c d s ll lr ul ur Hlen Hll IHll Hlr IHlr Hul IHul Hur IHur];
    intros s' Hperm.
  - eexists. split.
    + apply tree_of_leaf. rewrite <- (Permutation_length Hperm). exact Hlen.
    + simpl. split; [reflexivity | exact Hperm].
  - assert (Hr : forall q, routed ((b + a) / 2) ((d + c) / 2) q s
                           ≡ₚ routed ((b + a) / 2) ((d + c) / 2) q s').
    { intros q. unfold routed. rewrite Hperm. reflexivity. }
    destruct (IHll _ (Hr SW)) as (ll' & Hll' & Sll).
    destruct (IHlr _ (Hr SE)) as (lr' & Hlr' & Slr).
    destruct (IHul _ (Hr NW)) as (ul' & Hul' & Sul).
    destruct (IHur _ (Hr NE)) as (ur' & Hur' & Sur).
    eexists. split.
    + apply tree_of_internal; [|eassumption..].
      rewrite <- (Permutation_length Hperm). exact Hlen.
    + simpl. auto.
Qed.

Lemma same_shape_enumerateLeaves t1 :
  forall t2, same_shape t1 t2 ->
    Forall2 (fun l1 l2 => l1.1 = l2.1 /\ l1.2 ≡ₚ l2.2)
            (enumerateLeaves t1) (enumerateLeaves t2).
Proof.
  assert (Hcons : forall q (l1 l2 : list (list Quadrant * list OsmNodeWrapper)),
             Forall2 (fun l1 l2 => l1.1 = l2.1 /\ l1.2 ≡ₚ l2.2) l1 l2 ->
             Forall2 (fun l1 l2 => l1.1 = l2.1 /\ l1.2 ≡ₚ l2.2)
                     (map (prod_map (cons q) id) l1) (map (prod_map (cons q) id) l2)).
  { intros q l1 l2 H. induction H as [|[p1 m1] [p2 m2] l1 l2 [Hp Hm] _ IH]; simpl.
    - constructor.
    - constructor; [|exact IH]. simpl in *. split; [congruence | exact Hm]. }
  induction t1 as [f1 | f1 ll1 IHll lr1 IHlr ul1 IHul ur1 IHur];
    intros [f2 | f2 ll2 lr2 ul2 ur2] H; simpl in H; try contradiction.
  - destruct H as [_ Hperm]. simpl.
    destruct (members f1) as [|m1 ms1] eqn:H1.
    + apply Permutation_nil in Hperm. rewrite Hperm. constructor.
    + destruct (members f2) as [|m2 ms2] eqn:H2.
      * symmetry in Hperm. apply Permutation_nil in Hperm. discriminate.
      * constructor; [|constructor]. simpl. split; [reflexivity | exact Hperm].
  - destruct H as (_ & Hll & Hlr & Hul & Hur). simpl.
    repeat apply Forall2_app; apply Hcons; auto.
Qed.

Lemma same_shape_files t1 t2 out_dir file_name :
  same_shape t1 t2 ->
  Forall2 (fun w1 w2 => fw_path w1 = fw_path w2
                        /\ file_elements w1 ≡ₚ file_elements w2)
          (write_leaves t1 out_dir file_name).2
          (write_leaves t2 out_dir file_name).2.
Proof.
  intros H. rewrite !write_leaves_files.
  pose proof (same_shape_enumerateLeaves t1 t2 H) as Hl.
  induction Hl as [|[p1 m1] [p2 m2] l1 l2 [Hp Hm] _ IH]; simpl; [constructor|].
  constructor; [|exact IH]. simpl in Hp, Hm. subst p2.
  rewrite !file_elements_leaf_file. split; [reflexivity|].
  simpl. apply Permutation_map. exact Hm.
Qed.

(** X5 (the order of the input does not matter for the files).  If the
    insertion of a sequence returns, then the insertion of any rearrangement
    of the sequence returns too, within the same depth of recursion, and
    builds a tree of the same shape: the same nodes with the same
    rectangles, and in each leaf the same records up to their order.
    [write_leaves] then writes the same files, each with the same elements
    up to their order. *)
Theorem insertion_order_is_immaterial (fuel : nat) (a b c d : float) (cap : Z)
    (nodes nodes' : list OsmNodeWrapper) (t : QTNode) :
  add_all fuel (QTNode_init a b c d cap) nodes = Ok t ->
  nodes ≡ₚ nodes' ->
  exists t',
    (forall fuel', (depth t < fuel')%nat ->
       add_all fuel' (QTNode_init a b c d cap) nodes' = Ok t')
    /\ same_shape t t'
    /\ forall out_dir file_name,
         Forall2 (fun w w' => fw_path w = fw_path w'
                              /\ file_elements w ≡ₚ file_elements w')
                 (write_leaves t out_dir file_name).2
                 (write_leaves t' out_dir file_name).2.
Proof.
  intros Hall Hperm.
  destruct (add_all_init_inv _ _ _ _ _ _ _ _ Hall) as [[-> ->] | (_ & Hcap & Ht)].
  - apply Permutation_nil in Hperm. subst nodes'.
    exists (QTNode_init a b c d cap).
    split; [intros; reflexivity|].
    assert (Hs : same_shape (QTNode_init a b c d cap) (QTNode_init a b c d cap))
      by (simpl; split; reflexivity).
    split; [exact Hs|]. intros. apply same_shape_files. exact Hs.
  - destruct (tree_of_Permutation _ _ _ _ _ _ _ Ht _ Hperm) as (t' & Ht' & Hs).
    exists t'. split; [|split; [exact Hs|]].
    + intros fuel' Hd. rewrite (same_shape_depth _ _ Hs) in Hd.
      apply (add_all_complete cap a b c d nodes' [] _ _
               (QTNode_init_tree_of cap a b c d ltac:(lia)) Ht'). exact Hd.
    + intros. apply same_shape_files. exact Hs.
Qed.

Lemma insertion_order_is_immaterial_witness :
  add_all 2 (globe 2) [p_10_10; p_20_20; p_m10_m10] = Ok three_points_tree
  /\ [p_10_10; p_20_20; p_m10_m10] ≡ₚ [p_m10_m10; p_20_20; p_10_10]
  /\ exists t',
       add_all 2 (globe 2) [p_m10_m10; p_20_20; p_10_10] = Ok t'
       /\ same_shape three_points_tree t'.
Proof.
  assert (Hperm : [p_10_10; p_20_20; p_m10_m10] ≡ₚ [p_m10_m10; p_20_20; p_10_10])
    by exact (Permutation_rev [p_10_10; p_20_20; p_m10_m10]).
  split; [reflexivity|]. split; [exact Hperm|].
  destruct (insertion_order_is_immaterial 2 (-90) 90 (-180) 180 2
              [p_10_10; p_20_20; p_m10_m10] [p_m10_m10; p_20_20; p_10_10]
              three_points_tree eq_refl Hperm) as (t' & Hret & Hs & _).
  exists t'. split; [apply Hret; simpl; lia | exact Hs].
Defined.

(** ** The files that [main] writes *)

Lemma enumerateLeaves_leaf_fields t :
  forall leaf, leaf ∈ enumerateLeaves t ->
    leaf.2 <> [] /\ exists f, f ∈ leaf_fields t /\ members f = leaf.2.
Proof.
  induction t as [f | f ll IHll lr IHlr ul IHul ur IHur]; intros leaf Hin.
  - simpl in Hin. destruct (members f) as [|m ms] eqn:Hm; [inversion Hin|].
    apply list_elem_of_singleton in Hin. subst leaf. simpl.
    split; [discriminate|]. exists f. split; [apply list_elem_of_singleton; reflexivity|].
    exact Hm.
  - simpl in Hin. rewrite !elem_of_app in Hin. cbn [leaf_fields].
    destruct Hin as [Hin|[Hin|[Hin|Hin]]];
      apply list_elem_of_fmap in Hin as ([path' pts'] & -> & Hin); simpl;
      [destruct (IHll _ Hin) as (Hne & f' & Hf' & Hm)
      |destruct (IHlr _ Hin) as (Hne & f' & Hf' & Hm)
      |destruct (IHul _ Hin) as (Hne & f' & Hf' & Hm)
      |destruct (IHur _ Hin) as (Hne & f' & Hf' & Hm)];
      (split; [exact Hne|]); exists f'; rewrite !elem_of_app; auto.
Qed.

Lemma leaf_file_chunks out_dir file_name leaf :
  fw_chunks (leaf_file out_dir file_name leaf)
  = osm_header :: file_elements (leaf_file out_dir file_name leaf) ++ [osm_footer].
Proof. rewrite file_elements_leaf_file. reflexivity. Qed.

Lemma sum_list_with_lower {A : Type} (g : A -> nat) (l : list A) :
  Forall (fun x => (1 <= g x)%nat) l -> (length l <= sum_list_with g l)%nat.
Proof. induction 1 as [|x l Hx _ IH]; simpl; lia. Qed.

Lemma sum_list_with_upper {A : Type} (g : A -> nat) (l : list A) (cap : Z) :
  Forall (fun x => Z.of_nat (g x) <= cap) l ->
  Z.of_nat (sum_list_with g l) <= cap * Z.of_nat (length l).
Proof. induction 1 as [|x l Hx _ IH]; simpl; lia. Qed.

(** What [write_leaves] writes for a tree built by insertion. *)
Lemma built_tree_files fuel a b c d cap nodes t out_dir file_name :
  add_all fuel (QTNode_init a b c d cap) nodes = Ok t ->
  Forall (fun w =>
            fw_chunks w = osm_header :: file_elements w ++ [osm_footer]
            /\ (1 <= length (file_elements w))%nat
            /\ Z.of_nat (length (file_elements w)) <= cap)
         (write_leaves t out_dir file_name).2.
Proof.
  intros Hall. rewrite write_leaves_files. apply Forall_fmap, Forall_forall.
  intros leaf Hin. simpl.
  destruct (enumerateLeaves_leaf_fields t leaf Hin) as (Hne & f & Hf & Hm).
  split; [apply leaf_file_chunks|].
  rewrite file_elements_leaf_file, length_map.
  split; [destruct leaf.2; [congruence | simpl; lia]|].
  destruct (add_all_init_inv _ _ _ _ _ _ _ _ Hall) as [[-> ->] | (_ & _ & Ht)].
  - apply list_elem_of_singleton in Hf. subst f. simpl in Hm. congruence.
  - pose proof (tree_of_capacity _ _ _ _ _ _ _ Ht) as Hcap.
    rewrite Forall_forall in Hcap. destruct (Hcap f Hf) as [Hlen _].
    rewrite <- Hm. exact Hlen.
Qed.

(** X6 (no more than [max_nodes] nodes in each file).  When [main]
    returns, the file system is the one it started from with the files of
    the leaves written to it, at pairwise distinct paths.  Each of these
    files is on the file system as written: the header, then at least one
    and at most [max_nodes] serialised nodes, then the footer.  Between
    them the files hold as many nodes as the input has; so there are at
    most as many files as nodes, and at least the number of nodes divided
    by [max_nodes]. *)
Theorem files_hold_at_most_max_nodes (fuel : nat) (nodes : list OsmNodeWrapper)
    (out_dir : string) (max_nodes : Z) (fs fs' : gmap string (list string)) :
  main fuel nodes out_dir max_nodes fs = Ok fs' ->
  exists ws,
    fs' = run_io ws fs
    /\ NoDup (map fw_path ws)
    /\ Forall (fun w =>
                 fs' !! fw_path w = Some (fw_chunks w)
                 /\ fw_chunks w = osm_header :: file_elements w ++ [osm_footer]
                 /\ (1 <= length (file_elements w))%nat
                 /\ Z.of_nat (length (file_elements w)) <= max_nodes)
              ws
    /\ sum_list_with (fun w => length (file_elements w)) ws = length nodes
    /\ (length ws <= length nodes)%nat
    /\ Z.of_nat (length nodes) <= max_nodes * Z.of_nat (length ws).
Proof.
  unfold main. intros Hmain.
  apply bind_Ok_inv in Hmain as (t & Hall & Hret). injection Hret as <-.
  pose proof (built_tree_files _ _ _ _ _ _ _ _ out_dir "root" Hall) as Hfiles.
  assert (Hsum : sum_list_with (fun w => length (file_elements w))
                               (write_leaves t out_dir "root").2 = length nodes).
  { rewrite <- length_concat_map.
    rewrite write_leaves_files, map_map.
    rewrite (map_ext _ (fun leaf => map (fun m => tostring (node m)) leaf.2))
      by (intros leaf; apply file_elements_leaf_file).
    rewrite <- (map_map snd (map (fun m => tostring (node m)))).
    rewrite <- concat_map, length_map, enumerateLeaves_members.
    destruct (add_all_init_inv _ _ _ _ _ _ _ _ Hall) as [[-> ->] | (_ & _ & Ht)];
      [reflexivity|].
    apply Permutation_length. eapply tree_of_members. exact Ht. }
  exists (write_leaves t out_dir "root").2.
  split; [reflexivity|]. split; [apply write_leaves_NoDup|]. split; [|split; [exact Hsum|split]].
  - rewrite Forall_forall in Hfiles |- *. intros w Hw.
    split; [apply run_io_write_leaves; exact Hw | exact (Hfiles w Hw)].
  - rewrite <- Hsum. apply sum_list_with_lower.
    eapply Forall_impl; [exact Hfiles|]. intros w (_ & H & _). exact H.
  - rewrite <- Hsum. apply sum_list_with_upper.
    eapply Forall_impl; [exact Hfiles|]. intros w (_ & _ & H). exact H.
Qed.

Lemma files_hold_at_most_max_nodes_witness :
  main 2 [p_10_10; p_20_20; p_m10_m10] "out" 2 ∅
  = Ok (run_io (write_leaves three_points_tree "out" "root").2 ∅)
  /\ exists ws,
       NoDup (map fw_path ws)
       /\ Forall (fun w => (1 <= length (file_elements w))%nat
                           /\ Z.of_nat (length (file_elements w)) <= 2) ws
       /\ sum_list_with (fun w => length (file_elements w)) ws = 3%nat.
Proof.
  assert (Hmain : main 2 [p_10_10; p_20_20; p_m10_m10] "out" 2 ∅
                  = Ok (run_io (write_leaves three_points_tree "out" "root").2 ∅))
    by reflexivity.
  split; [exact Hmain|].
  destruct (files_hold_at_most_max_nodes 2 [p_10_10; p_20_20; p_m10_m10] "out" 2 ∅ _ Hmain)
    as (ws & _ & Hnd & Hall & Hsum & _).
  exists ws. split; [exact Hnd|]. split; [|exact Hsum].
  eapply Forall_impl; [exact Hall|]. intros w (_ & _ & H1 & H2). split; assumption.
Defined.

(** ** What [main] leaves alone *)

Lemma prefix_app (a b : string) : String.prefix a (a +:+ b) = true.
Proof.
  induction a as [|ch a IH]; [change ("" +:+ b) with b; destruct b; reflexivity|].
  rewrite string_app_cons. cbn [String.prefix].
  destruct (ascii_dec ch ch) as [_|Hne]; [exact IH | congruence].
Qed.

Lemma os_path_join_root_prefix out_dir path :
  String.prefix out_dir (os_path_join out_dir ("root" +:+ path_code path +:+ ".osm")) = true.
Proof.
  unfold os_path_join.
  replace (String.prefix "/" ("root" +:+ path_code path +:+ ".osm")) with false
    by reflexivity.
  destruct (String.eqb out_dir "" || endswith_sep out_dir)%bool.
  - apply prefix_app.
  - apply prefix_app.
Qed.

Lemma enumerateLeaves_nonempty t :
  concat (map snd (enumerateLeaves t)) <> [] -> enumerateLeaves t <> [].
Proof. intros H Hnil. apply H. rewrite Hnil. reflexivity. Qed.

(** X7 (the files [main] touches).  When [main] returns, every path whose
    content differs from the one before the run is the file of a non-empty
    leaf of the tree built: it is [out_dir] joined with ['root'], the
    quadrant codes of the leaf's path and ['.osm'], and so begins with
    [out_dir].  No file is removed.  An empty input leaves the file system
    as it was; any other input has at least one file written. *)
Theorem main_changes_only_leaf_files (fuel : nat) (nodes : list OsmNodeWrapper)
    (out_dir : string) (max_nodes : Z) (fs fs' : gmap string (list string)) :
  main fuel nodes out_dir max_nodes fs = Ok fs' ->
  (forall k, fs' !! k <> fs !! k ->
     String.prefix out_dir k = true
     /\ exists t path f,
          add_all fuel (globe max_nodes) nodes = Ok t
          /\ subtree t path = Some (Leaf f)
          /\ members f <> []
          /\ k = os_path_join out_dir ("root" +:+ path_code path +:+ ".osm")
          /\ fs' !! k = Some (leaf_chunks (members f)))
  /\ (forall k, is_Some (fs !! k) -> is_Some (fs' !! k))
  /\ (nodes = [] -> fs' = fs)
  /\ (nodes <> [] -> exists k, is_Some (fs' !! k) /\ String.prefix out_dir k = true).
Proof.
  unfold main. intros Hmain.
  apply bind_Ok_inv in Hmain as (t & Hall & Hret). injection Hret as <-.
  split; [|split; [|split]].
  - intros k Hk. rewrite run_io_lookup in Hk.
    destruct (last_write k (write_leaves t out_dir "root").2) as [v|] eqn:Hlast;
      [|congruence].
    apply last_write_Some in Hlast. rewrite write_leaves_files, map_map in Hlast.
    apply list_elem_of_fmap in Hlast as ([path pts] & -> & Hin). simpl.
    split; [apply os_path_join_root_prefix|].
    destruct (enumerateLeaves_subtree t _ _ Hin) as (Hne & f & Hsub & Hm).
    exists t, path, f. split; [exact Hall|]. split; [exact Hsub|].
    split; [congruence|]. split; [reflexivity|].
    assert (Hw : leaf_file out_dir "root" (path, pts) ∈ (write_leaves t out_dir "root").2).
    { rewrite write_leaves_files. apply list_elem_of_fmap. exists (path, pts).
      split; [reflexivity | exact Hin]. }
    pose proof (run_io_write_leaves t out_dir "root" fs _ Hw) as Hrun.
    simpl in Hrun. rewrite Hm. exact Hrun.
  - intros k Hk. rewrite run_io_lookup.
    destruct (last_write k (write_leaves t out_dir "root").2); [eexists; reflexivity | exact Hk].
  - intros ->. simpl in Hall. injection Hall as <-. reflexivity.
  - intros Hne.
    destruct (add_all_init_inv _ _ _ _ _ _ _ _ Hall) as [[-> _] | (_ & _ & Ht)];
      [congruence|].
    pose proof (tree_of_members _ _ _ _ _ _ _ Ht) as Hperm.
    rewrite <- enumerateLeaves_members in Hperm.
    destruct (enumerateLeaves t) as [|leaf leaves] eqn:Henum.
    + simpl in Hperm. apply Permutation_nil_l in Hperm. congruence.
    + assert (Hw : leaf_file out_dir "root" leaf ∈ (write_leaves t out_dir "root").2).
      { rewrite write_leaves_files, Henum. apply elem_of_cons. left. reflexivity. }
      exists (fw_path (leaf_file out_dir "root" leaf)).
      rewrite (run_io_write_leaves t out_dir "root" fs _ Hw).
      split; [eexists; reflexivity|]. apply os_path_join_root_prefix.
Qed.

Lemma main_changes_only_leaf_files_witness :
  main 2 [p_10_10; p_20_20; p_m10_m10] "out" 2 {[ "elsewhere/kept.osm" := ["old"] ]}
  = Ok (run_io (write_leaves three_points_tree "out" "root").2
               {[ "elsewhere/kept.osm" := ["old"] ]})
  /\ is_Some (run_io (write_leaves three_points_tree "out" "root").2
                     {[ "elsewhere/kept.osm" := ["old"] ]} !! "elsewhere/kept.osm").
Proof.
  assert (Hmain : main 2 [p_10_10; p_20_20; p_m10_m10] "out" 2
                       {[ "elsewhere/kept.osm" := ["old"] ]}
                  = Ok (run_io (write_leaves three_points_tree "out" "root").2
                               {[ "elsewhere/kept.osm" := ["old"] ]}))
    by reflexivity.
  split; [exact Hmain|].
  apply (proj1 (proj2 (main_changes_only_leaf_files _ _ _ _ _ _ Hmain))).
  rewrite lookup_singleton_eq. eexists; reflexivity.
Defined.

(** ** Coordinates that are not numbers *)

Lemma SFeqb_refl_not_nan (u : spec_float) : SFeqb u u = false -> u = S754_nan.
Proof.
  unfold SFeqb, SFcompare.
  destruct u as [s|s| |s m e]; try reflexivity; try (destruct s; discriminate).
  rewrite Z.compare_refl.
  change (Pos.compare_cont Eq) with Pos.compare. rewrite Pos.compare_refl.
  destruct s; discriminate.
Qed.

Lemma is_nan_leb (m x : float) : is_nan x = true -> (m <=? x)%float = false.
Proof.
  unfold is_nan. rewrite FloatAxioms.eqb_spec, FloatAxioms.leb_spec. intros H.
  apply negb_true_iff, SFeqb_refl_not_nan in H. rewrite H.
  unfold SFleb, SFcompare. destruct (Prim2SF m) as [s|s| |s mm e]; try reflexivity;
    destruct s; reflexivity.
Qed.

(** X8 (coordinates that are not numbers).  [float] accepts ['nan'], and
    no comparison with a NaN holds: a node whose latitude is NaN is sent to
    a lower quadrant at every internal node, one whose longitude is NaN to
    a left quadrant, and one with both descends through [lower_left] only,
    whatever the middles are.  Such a node lies in no rectangle under the
    greater-or-equal convention, the one of its leaf included. *)
Theorem nan_is_routed_south_west (p : OsmNodeWrapper) :
  (is_nan (lat p) = true ->
     forall mlat mlon, is_upper (quadrant mlat mlon p) = false)
  /\ (is_nan (lon p) = true ->
        forall mlat mlon, is_right (quadrant mlat mlon p) = false)
  /\ (is_nan (lat p) = true \/ is_nan (lon p) = true ->
        forall r, in_rect r p = false)
  /\ (is_nan (lat p) = true -> is_nan (lon p) = true ->
        (forall fuel f ll lr ul ur,
           add_2_child fuel (Internal f ll lr ul ur) p
           = (ll' ← add fuel ll p; Ok (Internal f ll' lr ul ur)))
        /\ forall t, Forall (fun q => q = SW) (route t p)).
Proof.
  split; [|split; [|split]].
  - intros H mlat mlon. unfold quadrant. rewrite (is_nan_leb mlat _ H).
    destruct (mlon <=? lon p)%float; reflexivity.
  - intros H mlat mlon. unfold quadrant. rewrite (is_nan_leb mlon _ H).
    destruct (mlat <=? lat p)%float; reflexivity.
  - intros H [[[a b] c] d]. unfold in_rect, in_range.
    destruct H as [H|H]; rewrite (is_nan_leb _ _ H); simpl;
      [reflexivity | apply andb_false_r].
  - intros Hlat Hlon. split.
    + intros fuel f ll lr ul ur. unfold add_2_child, add_2_child_with.
      rewrite (is_nan_leb _ _ Hlat), (is_nan_leb _ _ Hlon). reflexivity.
    + induction t as [f | f ll IHll lr _ ul _ ur _]; simpl; [constructor|].
      unfold quadrant. rewrite (is_nan_leb _ _ Hlat), (is_nan_leb _ _ Hlon).
      constructor; [reflexivity | exact IHll].
Qed.

Lemma nan_is_routed_south_west_witness :
  is_nan (lat (mkOsmNodeWrapper nan nan "<node/>")) = true
  /\ is_nan (lon (mkOsmNodeWrapper nan nan "<node/>")) = true
  /\ Forall (fun q => q = SW) (route three_points_tree (mkOsmNodeWrapper nan nan "<node/>"))
  /\ in_rect (-90, 90, -180, 180)%float (mkOsmNodeWrapper nan nan "<node/>") = false.
Proof.
  split; [reflexivity|]. split; [reflexivity|]. split.
  - apply (proj2 (proj2 (proj2 (proj2 (nan_is_routed_south_west
                                          (mkOsmNodeWrapper nan nan "<node/>"))))
                         eq_refl eq_refl)).
  - apply (proj1 (proj2 (proj2 (nan_is_routed_south_west
                                  (mkOsmNodeWrapper nan nan "<node/>"))))).
    left. reflexivity.
Defined.

(** ** The loop of [main] over the document *)

Lemma for_each_child_app {A S : Type} (body : S -> A -> outcome S) (l1 l2 : list A) :
  forall s,
    for_each_child body (l1 ++ l2) s
    = (s' ← for_each_child body l1 s; for_each_child body l2 s').
Proof.
  induction l1 as [|x l1 IH]; intros s; [reflexivity|].
  cbn [app for_each_child]. destruct (body s x) as [s'| | |]; try reflexivity.
  exact (IH s').
Qed.

Lemma main_loop_body_other float_of_string fuel t child :
  tag child <> "node" -> main_loop_body float_of_string fuel t child = Returns t.
Proof.
  intros Hne. unfold main_loop_body.
  destruct (String.eqb_spec (tag child) "node"); [contradiction | reflexivity].
Qed.

Lemma main_loop_body_node float_of_string fuel t child :
  tag child = "node" ->
  main_loop_body float_of_string fuel t child
  = (node ← wrap float_of_string child; of_result (add fuel t node)).
Proof.
  intros He. unfold main_loop_body.
  destruct (String.eqb_spec (tag child) "node"); [reflexivity | contradiction].
Qed.

Lemma node_children_cons_node child root :
  tag child = "node" -> node_children (child :: root) = child :: node_children root.
Proof. intros H. unfold node_children. rewrite filter_cons. case_decide; [reflexivity|contradiction]. Qed.

Lemma node_children_cons_other child root :
  tag child <> "node" -> node_children (child :: root) = node_children root.
Proof. intros H. unfold node_children. rewrite filter_cons. case_decide; [contradiction|reflexivity]. Qed.

(** On children that all wrap, the loop over the document is the loop over
    the records. *)
Lemma for_each_child_wrapped float_of_string fuel :
  forall root nodes t,
    Forall2 (wraps float_of_string) (node_children root) nodes ->
    for_each_child (main_loop_body float_of_string fuel) root t
    = of_result (add_all fuel t nodes).
Proof.
  induction root as [|child root IH]; intros nodes t Hw.
  - inversion Hw. reflexivity.
  - destruct (decide (tag child = "node")) as [Hnode|Hother].
    + rewrite (node_children_cons_node _ _ Hnode) in Hw.
      inversion Hw as [|? w ? nodes' Hwrap Hrest]; subst.
      cbn [for_each_child]. rewrite (main_loop_body_node _ _ _ _ Hnode).
      unfold wraps in Hwrap. rewrite Hwrap. unfold add_all. cbn [for_each].
      change (Returns w ≫= (fun node => of_result (add fuel t node)))
        with (of_result (add fuel t w)).
      destruct (add fuel t w) as [t'| |]; try reflexivity.
      exact (IH nodes' t' Hrest).
    + rewrite (node_children_cons_other _ _ Hother) in Hw.
      cbn [for_each_child]. rewrite (main_loop_body_other _ _ _ _ Hother).
      exact (IH nodes t Hw).
Qed.

(** A run of the loop that raises stops at a ['node'] child that does not
    wrap, after the ones before it were inserted. *)
Lemma for_each_child_raises float_of_string fuel e :
  forall root t0,
    for_each_child (main_loop_body float_of_string fuel) root t0 = Raises e ->
    exists root1 child root2 nodes t,
      root = root1 ++ child :: root2
      /\ Forall2 (wraps float_of_string) (node_children root1) nodes
      /\ add_all fuel t0 nodes = Ok t
      /\ tag child = "node"
      /\ wrap float_of_string child = Raises e.
Proof.
  induction root as [|child root IH]; intros t0 Hrun; [discriminate|].
  cbn [for_each_child] in Hrun.
  destruct (decide (tag child = "node")) as [Hnode|Hother].
  - rewrite (main_loop_body_node _ _ _ _ Hnode) in Hrun.
    destruct (wrap float_of_string child) as [w|e'| |] eqn:Hwrap; try discriminate.
    + change (Returns w ≫= (fun node => of_result (add fuel t0 node)))
        with (of_result (add fuel t0 w)) in Hrun.
      destruct (add fuel t0 w) as [t'| |] eqn:Hadd; try discriminate.
      destruct (IH t' Hrun) as (root1 & bad & root2 & nodes & t & -> & Hw & Hall & Hbad & He).
      exists (child :: root1), bad, root2, (w :: nodes), t.
      split; [reflexivity|]. split.
      { rewrite (node_children_cons_node _ _ Hnode). constructor; assumption. }
      split; [|split; assumption].
      unfold add_all in *. cbn [for_each]. rewrite Hadd. exact Hall.
    + injection Hrun as ->.
      exists [], child, root, [], t0.
      repeat split; [constructor | exact Hnode | exact Hwrap].
  - rewrite (main_loop_body_other _ _ _ _ Hother) in Hrun.
    destruct (IH t0 Hrun) as (root1 & bad & root2 & nodes & t & -> & Hw & Hall & Hbad & He).
    exists (child :: root1), bad, root2, nodes, t.
    split; [reflexivity|]. split; [|split; [|split]]; try assumption.
    rewrite (node_children_cons_other _ _ Hother). exact Hw.
Qed.

Lemma wrap_Raises float_of_string child e :
  wrap float_of_string child = Raises e
  <-> (attrib child !! "lat" = None /\ e = KeyError "lat")
      \/ (exists s, attrib child !! "lat" = Some s
                    /\ float_of_string s = None /\ e = ValueError s)
      \/ (exists s x, attrib child !! "lat" = Some s
                      /\ float_of_string s = Some x
                      /\ attrib child !! "lon" = None /\ e = KeyError "lon")
      \/ (exists s x s', attrib child !! "lat" = Some s
                         /\ float_of_string s = Some x
                         /\ attrib child !! "lon" = Some s'
                         /\ float_of_string s' = None /\ e = ValueError s').
Proof.
  unfold wrap, getitem, float_.
  destruct (attrib child !! "lat") as [s|] eqn:Hlat; simpl.
  2: { split.
       - intros H. injection H as <-. left. split; reflexivity.
       - intros [[_ ->] | [(? & ? & _) | [(? & ? & ? & _) | (? & ? & ? & ? & _)]]];
           [reflexivity | discriminate..]. }
  destruct (float_of_string s) as [x|] eqn:Hx; simpl.
  2: { split.
       - intros H. injection H as <-. right. left. exists s. repeat split; assumption.
       - intros [[? _] | [(s1 & H1 & _ & ->) | [(s1 & ? & H1 & H2 & _)
                                               | (s1 & ? & ? & H1 & H2 & _)]]];
           [discriminate | congruence | congruence | congruence]. }
  destruct (attrib child !! "lon") as [s'|] eqn:Hlon; simpl.
  2: { split.
       - intros H. injection H as <-. right. right. left. exists s, x.
         repeat split; assumption.
       - intros [[? _] | [(s1 & H1 & H2 & _) | [(s1 & ? & _ & _ & _ & ->)
                                               | (s1 & ? & ? & _ & _ & ? & _)]]];
           [discriminate | congruence | reflexivity | discriminate]. }
  destruct (float_of_string s') as [x'|] eqn:Hx'; simpl.
  - split; [discriminate|].
    intros [[? _] | [(s1 & H1 & H2 & _) | [(s1 & ? & _ & _ & ? & _)
                                          | (s1 & ? & s2 & _ & _ & H1 & H2 & _)]]];
      [discriminate | congruence | discriminate | congruence].
  - split.
    + intros H. injection H as <-. right. right. right. exists s, x, s'.
      repeat split; assumption.
    + intros [[? _] | [(s1 & H1 & H2 & _) | [(s1 & ? & _ & _ & ? & _)
                                            | (s1 & ? & s2 & _ & _ & H1 & _ & ->)]]];
        [discriminate | congruence | discriminate | congruence].
Qed.

(** X9 (the records of the document).  When every ['node'] child of the
    root has a ['lat'] and a ['lon'] that [float] reads, [main] run on the
    document ends as [main] run on the records of these children, taken in
    document order: it writes the same files, or fails to return in the
    same way.  Children with another tag play no part. *)
Theorem document_run_is_run_on_node_children
    (float_of_string : string -> option float) (fuel : nat)
    (root : list XmlChild) (nodes : list OsmNodeWrapper) (out_dir : string)
    (max_nodes : Z) (fs : gmap string (list string)) :
  Forall2 (wraps float_of_string) (node_children root) nodes ->
  main_document float_of_string fuel root out_dir max_nodes fs
  = of_result (main fuel nodes out_dir max_nodes fs)
  /\ Forall2 (fun child w => node w = element child) (node_children root) nodes.
Proof.
  intros Hw. split.
  - unfold main_document, main.
    rewrite (for_each_child_wrapped float_of_string fuel root nodes _ Hw).
    destruct (add_all fuel (QTNode_init (-90) 90 (-180) 180 max_nodes) nodes);
      reflexivity.
  - eapply Forall2_impl; [exact Hw|]. intros child w. unfold wraps, wrap, getitem, float_.
    destruct (attrib child !! "lat") as [s|]; [simpl|discriminate].
    destruct (float_of_string s); [simpl|discriminate].
    destruct (attrib child !! "lon") as [s'|]; [simpl|discriminate].
    destruct (float_of_string s'); [simpl|discriminate].
    intros H. injection H as <-. reflexivity.
Qed.

Lemma document_run_is_run_on_node_children_witness :
  Forall2 (wraps float_of_scenario) (node_children scenario_document)
          [p_10_10; p_20_20; p_m10_m10]
  /\ main_document float_of_scenario 2 scenario_document "out" 2 ∅
     = Returns (run_io (write_leaves three_points_tree "out" "root").2 ∅).
Proof.
  assert (Hw : Forall2 (wraps float_of_scenario) (node_children scenario_document)
                       [p_10_10; p_20_20; p_m10_m10])
    by (repeat constructor).
  split; [exact Hw|].
  rewrite (proj1 (document_run_is_run_on_node_children
                    float_of_scenario 2 scenario_document _ "out" 2 ∅ Hw)).
  reflexivity.
Defined.

(** X10 (a ['node'] child that cannot be read).  [main] run on a document
    raises a [KeyError] or a [ValueError] exactly when some ['node'] child
    does not wrap, the ['node'] children before it all do, and the insertion
    of their records returns; the exception is that of the first such child.
    The latitude is read before the longitude: a missing ['lat'] gives
    [KeyError 'lat'] whatever else is wrong; a ['lat'] that [float] refuses
    gives a [ValueError] even when ['lon'] is missing.  The run never
    raises [AttributeError]. *)
Theorem unreadable_node_child_raises
    (float_of_string : string -> option float) (fuel : nat)
    (root : list XmlChild) (out_dir : string)
    (max_nodes : Z) (fs : gmap string (list string)) :
  (forall e,
     main_document float_of_string fuel root out_dir max_nodes fs = Raises e
     <-> exists root1 child root2 nodes t,
           root = root1 ++ child :: root2
           /\ Forall2 (wraps float_of_string) (node_children root1) nodes
           /\ add_all fuel (globe max_nodes) nodes = Ok t
           /\ tag child = "node"
           /\ wrap float_of_string child = Raises e)
  /\ (forall child e,
        wrap float_of_string child = Raises e
        <-> (attrib child !! "lat" = None /\ e = KeyError "lat")
            \/ (exists s, attrib child !! "lat" = Some s
                          /\ float_of_string s = None /\ e = ValueError s)
            \/ (exists s x, attrib child !! "lat" = Some s
                            /\ float_of_string s = Some x
                            /\ attrib child !! "lon" = None /\ e = KeyError "lon")
            \/ (exists s x s', attrib child !! "lat" = Some s
                               /\ float_of_string s = Some x
                               /\ attrib child !! "lon" = Some s'
                               /\ float_of_string s' = None /\ e = ValueError s'))
  /\ main_document float_of_string fuel root out_dir max_nodes fs
     <> RaisesAttributeError.
Proof.
  split; [|split].
  - intros e. unfold main_document. fold (globe max_nodes). split.
    + intros Hrun.
      destruct (for_each_child (main_loop_body float_of_string fuel) root (globe max_nodes))
        as [t|e'| |] eqn:Hloop; try discriminate.
      injection Hrun as ->.
      exact (for_each_child_raises float_of_string fuel e root _ Hloop).
    + intros (root1 & child & root2 & nodes & t & -> & Hw & Hall & Hnode & Hwrap).
      rewrite for_each_child_app.
      rewrite (for_each_child_wrapped float_of_string fuel root1 nodes _ Hw), Hall.
      cbn [of_result for_each_child].
      change (Returns t ≫= ?k) with (k t). cbn beta.
      rewrite (main_loop_body_node _ _ _ _ Hnode), Hwrap. reflexivity.
  - intros child e. apply wrap_Raises.
  - unfold main_document. fold (globe max_nodes).
    destruct (for_each_child (main_loop_body float_of_string fuel) root (globe max_nodes))
      as [t|e'| |] eqn:Hloop; try discriminate.
    exfalso. revert Hloop. generalize (globe max_nodes).
    induction root as [|child root IH]; intros t0; [discriminate|].
    cbn [for_each_child].
    destruct (decide (tag child = "node")) as [Hnode|Hother].
    + rewrite (main_loop_body_node _ _ _ _ Hnode).
      destruct (wrap float_of_string child) as [w|e'| |] eqn:Hwrap; try discriminate.
      * change (Returns w ≫= (fun node => of_result (add fuel t0 node)))
          with (of_result (add fuel t0 w)).
        destruct (add fuel t0 w) as [t'| |] eqn:Hadd; try discriminate.
        -- exact (IH t').
        -- exfalso. exact (add_no_AttributeError _ _ _ Hadd).
      * exfalso. revert Hwrap. unfold wrap, getitem, float_.
        destruct (attrib child !! "lat") as [s|]; [simpl|discriminate].
        destruct (float_of_string s); [simpl|discriminate].
        destruct (attrib child !! "lon") as [s'|]; [simpl|discriminate].
        destruct (float_of_string s'); discriminate.
    + rewrite (main_loop_body_other _ _ _ _ Hother). exact (IH t0).
Qed.

Lemma unreadable_node_child_raises_witness :
  main_document float_of_scenario 2
                (scenario_document ++ node_without_lat :: [node_with_bad_lat]) "out" 2 ∅
  = Raises (KeyError "lat")
  /\ main_document float_of_scenario 2
                   (scenario_document ++ node_with_bad_lat :: [node_without_lat]) "out" 2 ∅
     = Raises (ValueError "north").
Proof.
  split.
  - apply (proj1 (unreadable_node_child_raises float_of_scenario 2 _ "out" 2 ∅)).
    exists scenario_document, node_without_lat, [node_with_bad_lat],
           [p_10_10; p_20_20; p_m10_m10], three_points_tree.
    repeat split; repeat constructor.
  - apply (proj1 (unreadable_node_child_raises float_of_scenario 2 _ "out" 2 ∅)).
    exists scenario_document, node_with_bad_lat, [node_without_lat],
           [p_10_10; p_20_20; p_m10_m10], three_points_tree.
    repeat split; repeat constructor.
Defined.

(** ** Inputs that fit the capacity, and the file of the root *)

Lemma last_write_None k ws : k ∉ map fw_path ws -> last_write k ws = None.
Proof.
  induction ws as [|w ws IH]; intros Hk; [reflexivity|].
  simpl in Hk |- *. rewrite not_elem_of_cons in Hk. destruct Hk as [Hne Hk].
  rewrite (IH Hk). case_decide; [congruence | reflexivity].
Qed.

Lemma code_not_empty q s : code q +:+ s <> "".
Proof. destruct q; discriminate. Qed.

Lemma root_file_of_path out_dir path :
  os_path_join out_dir ("root" +:+ path_code path +:+ ".osm")
  = os_path_join out_dir "root.osm" ->
  path = [].
Proof.
  intros H. apply os_path_join_inj in H; [|reflexivity].
  change "root.osm" with ("root" +:+ "" +:+ ".osm") in H.
  apply string_app_inj_l, string_app_inj_r in H.
  destruct path as [|q path]; [reflexivity|].
  exfalso. exact (code_not_empty q _ H).
Qed.

(** X11 (inputs that fit, and the file of the root).  A non-empty input of
    at most [max_nodes] nodes is never split: whatever depth of recursion
    is allowed, its insertion returns the root as a single leaf that holds
    the nodes in document order, and [write_leaves] then opens one file
    only, ['root.osm'] in [out_dir], for the header, the nodes in this order
    and the footer; whenever [main] returns on such an input, the file
    system is the one it started from with this one file written.  An
    input of more than [max_nodes] nodes, if [main] returns on it, is
    written to files with longer names only: a ['root.osm'] already there
    is left as it is. *)
Theorem root_file_iff_input_fits (nodes : list OsmNodeWrapper) (out_dir : string)
    (max_nodes : Z) (fs : gmap string (list string)) :
  (nodes <> [] -> Z.of_nat (length nodes) <= max_nodes ->
   (forall fuel,
      add_all (S fuel) (globe max_nodes) nodes
      = Ok (Leaf (mkQTFields nodes (-90) 90 0 (-180) 180 0 max_nodes)))
   /\ (write_leaves (Leaf (mkQTFields nodes (-90) 90 0 (-180) 180 0 max_nodes))
                    out_dir "root").2
      = [mkFileWrite (os_path_join out_dir "root.osm")
           (osm_header :: map (fun m => tostring (node m)) nodes ++ [osm_footer])]
   /\ forall fuel fs',
        main fuel nodes out_dir max_nodes fs = Ok fs' ->
        fs' = <[os_path_join out_dir "root.osm" :=
                  osm_header :: map (fun m => tostring (node m)) nodes ++ [osm_footer]]> fs)
  /\ (max_nodes < Z.of_nat (length nodes) ->
      forall fuel fs',
        main fuel nodes out_dir max_nodes fs = Ok fs' ->
        fs' !! os_path_join out_dir "root.osm" = fs !! os_path_join out_dir "root.osm").
Proof.
  split.
  - intros Hne Hfit.
    assert (Hcap : 0 <= max_nodes) by lia.
    pose proof (tree_of_leaf max_nodes (-90) 90 (-180) 180 nodes Hfit) as Hleaf.
    change (Leaf (mkQTFields nodes (-90) 90 ((-90 + 90) / 2) (-180) 180
                             ((-180 + 180) / 2) max_nodes))
      with (Leaf (mkQTFields nodes (-90) 90 0 (-180) 180 0 max_nodes)) in Hleaf.
    assert (Hfile : (write_leaves (Leaf (mkQTFields nodes (-90) 90 0 (-180) 180 0 max_nodes))
                                  out_dir "root").2
                    = [mkFileWrite (os_path_join out_dir "root.osm")
                         (osm_header :: map (fun m => tostring (node m)) nodes
                            ++ [osm_footer])]).
    { destruct nodes as [|x nodes]; [congruence|]. reflexivity. }
    split; [|split; [exact Hfile|]].
    + intros fuel.
      apply (add_all_complete max_nodes _ _ _ _ nodes [] _ _
               (QTNode_init_tree_of max_nodes _ _ _ _ Hcap) Hleaf (S fuel)).
      simpl. lia.
    + intros fuel fs' Hmain. unfold main in Hmain.
      apply bind_Ok_inv in Hmain as (t & Hall & Hret). injection Hret as <-.
      destruct (add_all_init_inv _ _ _ _ _ _ _ _ Hall) as [[-> _] | (_ & _ & Ht)];
        [congruence|].
      rewrite (tree_of_deterministic _ _ _ _ _ _ _ Ht _ Hleaf), Hfile.
      reflexivity.
  - intros Hover fuel fs' Hmain. unfold main in Hmain.
    apply bind_Ok_inv in Hmain as (t & Hall & Hret). injection Hret as <-.
    rewrite run_io_lookup, last_write_None; [reflexivity|].
    rewrite write_leaves_files, map_map. intros Hin.
    apply list_elem_of_fmap in Hin as ([path pts] & Hpath & Hin). simpl in Hpath.
    symmetry in Hpath. apply root_file_of_path in Hpath. subst path.
    destruct (add_all_init_inv _ _ _ _ _ _ _ _ Hall) as [[_ ->] | (_ & _ & Ht)];
      [inversion Hin|].
    inversion Ht; subst; [lia|].
    simpl in Hin. rewrite !elem_of_app in Hin.
    destruct Hin as [Hin|[Hin|[Hin|Hin]]];
      apply list_elem_of_fmap in Hin as ([path' pts'] & Heq & _); discriminate.
Qed.

Lemma root_file_iff_input_fits_witness :
  add_all 1 (globe 2) [p_10_10; p_20_20]
  = Ok (Leaf (mkQTFields [p_10_10; p_20_20] (-90) 90 0 (-180) 180 0 2))
  /\ main 1 [p_10_10; p_20_20] "out" 2 ∅
     = Ok {[ "out/root.osm" := leaf_chunks [p_10_10; p_20_20] ]}
  /\ run_io (write_leaves three_points_tree "out" "root").2
            {[ "out/root.osm" := ["stale"] ]} !! "out/root.osm"
     = Some ["stale"].
Proof.
  destruct (proj1 (root_file_iff_input_fits [p_10_10; p_20_20] "out" 2 ∅)
                  ltac:(discriminate) ltac:(simpl; lia)) as (Hadd & _ & Hmain).
  split; [exact (Hadd 0%nat)|]. split.
  - assert (Hrun : main 1 [p_10_10; p_20_20] "out" 2 ∅
                   = Ok (run_io (write_leaves
                                   (Leaf (mkQTFields [p_10_10; p_20_20]
                                                     (-90) 90 0 (-180) 180 0 2))
                                   "out" "root").2 ∅))
      by reflexivity.
    exact (eq_trans Hrun (f_equal Ok (Hmain 1%nat _ Hrun))).
  - assert (Hrun : main 2 [p_10_10; p_20_20; p_m10_m10] "out" 2
                        {[ "out/root.osm" := ["stale"] ]}
                   = Ok (run_io (write_leaves three_points_tree "out" "root").2
                                {[ "out/root.osm" := ["stale"] ]}))
      by reflexivity.
    exact (eq_trans
             (proj2 (root_file_iff_input_fits [p_10_10; p_20_20; p_m10_m10] "out" 2
                       {[ "out/root.osm" := ["stale"] ]})
                    ltac:(simpl; lia) 2%nat _ Hrun)
             eq_refl).
Defined.

(** ** A larger capacity *)

Lemma tree_of_nonneg cap a b c d s t : tree_of cap a b c d s t -> 0 <= cap.
Proof. induction 1; [lia | assumption]. Qed.

Lemma tree_of_enumerateLeaves_sublist cap a b c d s t :
  tree_of cap a b c d s t ->
  forall leaf, leaf ∈ enumerateLeaves t -> leaf.2 `sublist_of` s.
Proof.
  intros Ht leaf Hin.
  destruct (enumerateLeaves_leaf_fields t leaf Hin) as (_ & f & Hf & <-).
  pose proof (tree_of_sublist _ _ _ _ _ _ _ Ht) as Hsub.
  rewrite Forall_forall in Hsub. exact (Hsub f Hf).
Qed.

Lemma routed_sublist mlat mlon q s : routed mlat mlon q s `sublist_of` s.
Proof. unfold routed. apply sublist_filter. Qed.

(** The tree for a larger capacity is the tree for the smaller one with
    some subtrees folded into leaves. *)
Lemma tree_of_coarser cap cap' a b c d s t :
  cap <= cap' ->
  tree_of cap a b c d s t ->
  exists t',
    tree_of cap' a b c d s t'
    /\ (depth t' <= depth t)%nat
    /\ (length (enumerateLeaves t') <= length (enumerateLeaves t))%nat
    /\ forall leaf, leaf ∈ enumerateLeaves t ->
         exists leaf', leaf' ∈ enumerateLeaves t'
                       /\ leaf'.1 `prefix_of` leaf.1
                       /\ leaf.2 `sublist_of` leaf'.2.
Proof.
  intros Hle Ht.
  induction Ht as [a b c d s Hlen
                  | a b c d s ll lr ul ur Hlen Hll IHll Hlr IHlr Hul IHul Hur IHur].
  - eexists. split; [apply tree_of_leaf; lia|].
    split; [reflexivity|]. split; [reflexivity|].
    intros leaf Hin. exists leaf. split; [exact Hin|].
    split; reflexivity.
  - pose proof (tree_of_internal cap a b c d s ll lr ul ur Hlen Hll Hlr Hul Hur) as Ht.
    destruct (Z_le_gt_dec (Z.of_nat (length s)) cap') as [Hfit|Hover].
    + eexists. split; [apply tree_of_leaf; exact Hfit|].
      split; [simpl; lia|].
      pose proof (tree_of_nonneg _ _ _ _ _ _ _ Ht) as Hcap.
      destruct s as [|x s]; [simpl in Hlen; lia|].
      split.
      * pose proof (tree_of_members _ _ _ _ _ _ _ Ht) as Hperm.
        rewrite <- enumerateLeaves_members in Hperm.
        destruct (enumerateLeaves (Internal _ ll lr ul ur)) as [|l0 ls] eqn:Henum.
        -- simpl in Hperm. apply Permutation_nil_l in Hperm. discriminate.
        -- simpl. lia.
      * intros leaf Hin. exists ([], x :: s).
        split; [simpl; apply list_elem_of_singleton; reflexivity|].
        split; [apply prefix_nil|].
        exact (tree_of_enumerateLeaves_sublist _ _ _ _ _ _ _ Ht leaf Hin).
    + destruct IHll as (ll' & Hll' & Hdll & Hnll & Hrll).
      destruct IHlr as (lr' & Hlr' & Hdlr & Hnlr & Hrlr).
      destruct IHul as (ul' & Hul' & Hdul & Hnul & Hrul).
      destruct IHur as (ur' & Hur' & Hdur & Hnur & Hrur).
      exists (Internal (mkQTFields [] a b ((b + a) / 2) c d ((d + c) / 2) cap')
                       ll' lr' ul' ur').
      split; [apply tree_of_internal; [lia|assumption..]|].
      split; [simpl; lia|].
      split; [simpl; rewrite !length_app, !length_map; lia|].
      intros leaf Hin. simpl in Hin. rewrite !elem_of_app in Hin.
      destruct Hin as [Hin|[Hin|[Hin|Hin]]];
        apply list_elem_of_fmap in Hin as ([path pts] & -> & Hin);
        [destruct (Hrll _ Hin) as ([path' pts'] & Hin' & Hpre & Hsub); exists (SW :: path', pts')
        |destruct (Hrlr _ Hin) as ([path' pts'] & Hin' & Hpre & Hsub); exists (SE :: path', pts')
        |destruct (Hrul _ Hin) as ([path' pts'] & Hin' & Hpre & Hsub); exists (NW :: path', pts')
        |destruct (Hrur _ Hin) as ([path' pts'] & Hin' & Hpre & Hsub); exists (NE :: path', pts')];
        (split; [simpl; rewrite !elem_of_app;
                 first [left; apply list_elem_of_fmap; eexists (_, _); split; [reflexivity|exact Hin']
                       |right; left; apply list_elem_of_fmap; eexists (_, _); split; [reflexivity|exact Hin']
                       |right; right; left; apply list_elem_of_fmap; eexists (_, _); split; [reflexivity|exact Hin']
                       |right; right; right; apply list_elem_of_fmap; eexists (_, _); split; [reflexivity|exact Hin']]
                |]);
        (split; [simpl in Hpre |- *; apply prefix_cons; exact Hpre | exact Hsub]).
Qed.

(** X12 (a larger capacity).  When the insertion of an input returns for a
    capacity, it returns for every larger capacity, within the same depth of
    recursion, and the division it yields is coarser: [write_leaves] writes
    no more files than before, and every leaf of the finer division lies,
    with its whole member list in the same order, in the leaf of the coarser
    one whose path begins its own. *)
Theorem larger_capacity_coarsens (fuel : nat) (a b c d : float) (cap cap' : Z)
    (nodes : list OsmNodeWrapper) (t : QTNode) :
  add_all fuel (QTNode_init a b c d cap) nodes = Ok t ->
  cap <= cap' ->
  exists t',
    (forall fuel', (depth t < fuel')%nat ->
       add_all fuel' (QTNode_init a b c d cap') nodes = Ok t')
    /\ (depth t' <= depth t)%nat
    /\ (forall out_dir file_name,
          (length (write_leaves t' out_dir file_name).2
           <= length (write_leaves t out_dir file_name).2)%nat)
    /\ forall leaf, leaf ∈ enumerateLeaves t ->
         exists leaf', leaf' ∈ enumerateLeaves t'
                       /\ leaf'.1 `prefix_of` leaf.1
                       /\ leaf.2 `sublist_of` leaf'.2.
Proof.
  intros Hall Hle.
  destruct (add_all_init_inv _ _ _ _ _ _ _ _ Hall) as [[-> ->] | (_ & Hcap & Ht)].
  - exists (QTNode_init a b c d cap').
    split; [intros fuel' _; reflexivity|]. split; [reflexivity|].
    split; [intros out_dir file_name; reflexivity|].
    intros leaf Hin. inversion Hin.
  - destruct (tree_of_coarser cap cap' a b c d nodes t Hle Ht)
      as (t' & Ht' & Hd & Hn & Hr).
    exists t'. split; [|split; [exact Hd|split; [|exact Hr]]].
    + intros fuel' Hf.
      apply (add_all_complete cap' a b c d nodes [] _ _
               (QTNode_init_tree_of cap' a b c d ltac:(lia)) Ht'). lia.
    + intros out_dir file_name. rewrite !write_leaves_files, !length_map. exact Hn.
Qed.

Lemma larger_capacity_coarsens_witness :
  add_all 2 (QTNode_init (-90) 90 (-180) 180 2) [p_10_10; p_20_20; p_m10_m10]
  = Ok three_points_tree
  /\ 2 <= 3
  /\ exists t',
       add_all 2 (QTNode_init (-90) 90 (-180) 180 3) [p_10_10; p_20_20; p_m10_m10] = Ok t'
       /\ (length (write_leaves t' "out" "root").2 <= 2)%nat.
Proof.
  assert (Hall : add_all 2 (QTNode_init (-90) 90 (-180) 180 2) [p_10_10; p_20_20; p_m10_m10]
                 = Ok three_points_tree) by reflexivity.
  split; [exact Hall|]. split; [lia|].
  destruct (larger_capacity_coarsens 2 _ _ _ _ 2 3 _ _ Hall ltac:(lia))
    as (t' & Hret & _ & Hfiles & _).
  exists t'. split; [apply Hret; simpl; lia | exact (Hfiles "out" "root")].
Defined.

(** ** What an insertion leaves alone *)

Lemma child_set_child_same q c f ll lr ul ur :
  exists ll' lr' ul' ur',
    set_child q c (Internal f ll lr ul ur) = Internal f ll' lr' ul' ur'
    /\ child q ll' lr' ul' ur' = c
    /\ forall q', q' <> q -> child q' ll' lr' ul' ur' = child q' ll lr ul ur.
Proof.
  destruct q; simpl; do 4 eexists; (split; [reflexivity|]); (split; [reflexivity|]);
    intros [] Hne; try reflexivity; congruence.
Qed.

Lemma route_Internal f ll lr ul ur p :
  route (Internal f ll lr ul ur) p
  = quadrant (mid_lat f) (mid_lon f) p
    :: route (child (quadrant (mid_lat f) (mid_lon f) p) ll lr ul ur) p.
Proof. simpl. destruct (quadrant (mid_lat f) (mid_lon f) p); reflexivity. Qed.

(** X13 (what an insertion leaves alone).  A call of [add] that returns
    keeps every node of the tree in its place, with its rectangle and its
    capacity; a node that was internal stays internal, with the same
    middles.  The nodes that change all lie on the route of the inserted
    point: the subtree at any place that is not on this route is the same
    after the call as before. *)
Theorem insertion_is_local (n : nat) :
  forall t t' p,
    add n t p = Ok t' ->
    forall path s, subtree t path = Some s ->
      (exists s', subtree t' path = Some s'
                  /\ bounds (fields s') = bounds (fields s)
                  /\ max_members (fields s') = max_members (fields s)
                  /\ (is_leaf s = false -> is_leaf s' = false /\ fields s' = fields s))
      /\ (~ path `prefix_of` route t' p -> subtree t' path = Some s).
Proof.
  induction n as [|n IH]; intros t t' p Hadd path s Hsub; [discriminate|].
  destruct t as [f | f ll lr ul ur].
  - destruct path as [|q path]; [|discriminate].
    injection Hsub as <-. split; [|intros Hnp; exfalso; apply Hnp, prefix_nil].
    rewrite add_S_Leaf in Hadd.
    destruct (Z.of_nat (length (members f ++ [p])) >? max_members f).
    + destruct (split_Ok_Internal _ _ _ Hadd) as (ll & lr & ul & ur & ->).
      eexists. split; [reflexivity|]. simpl.
      split; [reflexivity|]. split; [reflexivity|]. discriminate.
    + injection Hadd as <-. eexists. split; [reflexivity|]. simpl.
      split; [reflexivity|]. split; [reflexivity|]. discriminate.
  - rewrite add_S_Internal in Hadd. unfold add_2_child in Hadd.
    rewrite add_2_child_with_quadrant in Hadd.
    apply bind_Ok_inv in Hadd as (c' & Hc & Hret). injection Hret as <-.
    set (q := quadrant (mid_lat f) (mid_lon f) p) in *.
    destruct (child_set_child_same q c' f ll lr ul ur)
      as (ll' & lr' & ul' & ur' & Hset & Hsame & Hother).
    cbn [set_child] in Hset. rewrite Hset. clear Hset.
    destruct path as [|q' path].
    + injection Hsub as <-. split; [|intros Hnp; exfalso; apply Hnp, prefix_nil].
      eexists. split; [reflexivity|]. simpl.
      split; [reflexivity|]. split; [reflexivity|]. intros _. split; reflexivity.
    + cbn [subtree] in Hsub |- *.
      destruct (decide (q' = q)) as [->|Hne].
      * rewrite Hsame. destruct (IH _ _ _ Hc path s Hsub) as [Hkeep Hoff].
        split; [exact Hkeep|]. intros Hnp. apply Hoff. intros Hpre. apply Hnp.
        rewrite route_Internal. fold q. rewrite Hsame.
        apply prefix_cons. exact Hpre.
      * rewrite (Hother q' Hne). split; [|intros _; exact Hsub].
        exists s. split; [exact Hsub|]. split; [reflexivity|]. split; [reflexivity|].
        intros Hl. split; [exact Hl | reflexivity].
Qed.

Lemma insertion_is_local_witness :
  (exists t',
     add 8 three_points_tree p_0_0 = Ok t'
     /\ subtree t' [SW] = subtree three_points_tree [SW]
     /\ exists s', subtree t' [NE] = Some s' /\ bounds (fields s') = (0, 90, 0, 180)%float).
Proof.
  destruct (add 8 three_points_tree p_0_0) as [t'| |] eqn:Hadd;
    [|vm_compute in Hadd; discriminate..].
  exists t'. split; [reflexivity|].
  split.
  - apply (proj2 (insertion_is_local 8 three_points_tree t' p_0_0 Hadd [SW] _ eq_refl)).
    vm_compute in Hadd. injection Hadd as <-. vm_compute.
    intros [k Hk]. discriminate.
  - destruct (proj1 (insertion_is_local 8 three_points_tree t' p_0_0 Hadd [NE] _ eq_refl))
      as (s' & Hs' & Hb & _).
    exists s'. split; [exact Hs' | exact Hb].
Defined.

(** ** From the document to the files *)

Lemma wraps_element float_of_string child w :
  wraps float_of_string child w -> node w = element child.
Proof.
  unfold wraps, wrap, getitem, float_.
  destruct (attrib child !! "lat") as [s|]; [simpl|discriminate].
  destruct (float_of_string s); [simpl|discriminate].
  destruct (attrib child !! "lon") as [s'|]; [simpl|discriminate].
  destruct (float_of_string s'); [simpl|discriminate].
  intros H. injection H as <-. reflexivity.
Qed.

(** A run of the loop that returns has wrapped every ['node'] child and
    inserted the records. *)
Lemma for_each_child_returns float_of_string fuel :
  forall root t0 t,
    for_each_child (main_loop_body float_of_string fuel) root t0 = Returns t ->
    exists nodes,
      Forall2 (wraps float_of_string) (node_children root) nodes
      /\ add_all fuel t0 nodes = Ok t.
Proof.
  induction root as [|child root IH]; intros t0 t Hrun.
  - injection Hrun as <-. exists []. split; [constructor | reflexivity].
  - cbn [for_each_child] in Hrun.
    destruct (decide (tag child = "node")) as [Hnode|Hother].
    + rewrite (main_loop_body_node _ _ _ _ Hnode) in Hrun.
      destruct (wrap float_of_string child) as [w|e'| |] eqn:Hwrap; try discriminate.
      change (Returns w ≫= (fun node => of_result (add fuel t0 node)))
        with (of_result (add fuel t0 w)) in Hrun.
      destruct (add fuel t0 w) as [t1| |] eqn:Hadd; try discriminate.
      destruct (IH t1 t Hrun) as (nodes & Hw & Hall).
      exists (w :: nodes). split.
      * rewrite (node_children_cons_node _ _ Hnode). constructor; assumption.
      * unfold add_all in *. cbn [for_each]. rewrite Hadd. exact Hall.
    + rewrite (main_loop_body_other _ _ _ _ Hother) in Hrun.
      destruct (IH t0 t Hrun) as (nodes & Hw & Hall).
      exists nodes. split; [|exact Hall].
      rewrite (node_children_cons_other _ _ Hother). exact Hw.
Qed.

Lemma written_elements fuel a b c d cap nodes t out_dir file_name :
  add_all fuel (QTNode_init a b c d cap) nodes = Ok t ->
  concat (map file_elements (write_leaves t out_dir file_name).2)
  ≡ₚ map (fun m => tostring (node m)) nodes.
Proof.
  intros Hall. rewrite write_leaves_files, map_map.
  rewrite (map_ext _ (fun leaf => map (fun m => tostring (node m)) leaf.2))
    by (intros leaf; apply file_elements_leaf_file).
  rewrite <- (map_map snd (map (fun m => tostring (node m)))).
  rewrite <- concat_map, enumerateLeaves_members.
  destruct (add_all_init_inv _ _ _ _ _ _ _ _ Hall) as [[-> ->] | (_ & _ & Ht)];
    [reflexivity|].
  apply Permutation_map. eapply tree_of_members. exact Ht.
Qed.

(** X14 (from the document to the files).  When [main] returns on a
    document, every ['node'] child of the root had a ['lat'] and a ['lon']
    that [float] reads, and the files written hold, between them, exactly
    the ['node'] children, each one once and serialised as it is in the
    document, whatever [float] made of its coordinates; children with
    another tag are in no file.  The files have distinct paths, each is on
    the file system when [main] returns, and each holds at least one and at
    most [max_nodes] elements. *)
Theorem node_children_are_written_verbatim
    (float_of_string : string -> option float) (fuel : nat)
    (root : list XmlChild) (out_dir : string)
    (max_nodes : Z) (fs fs' : gmap string (list string)) :
  main_document float_of_string fuel root out_dir max_nodes fs = Returns fs' ->
  Forall (fun child => exists w, wraps float_of_string child w) (node_children root)
  /\ exists ws,
       fs' = run_io ws fs
       /\ NoDup (map fw_path ws)
       /\ concat (map file_elements ws)
            ≡ₚ map (fun child => tostring (element child)) (node_children root)
       /\ Forall (fun w =>
                    fs' !! fw_path w = Some (fw_chunks w)
                    /\ fw_chunks w = osm_header :: file_elements w ++ [osm_footer]
                    /\ (1 <= length (file_elements w))%nat
                    /\ Z.of_nat (length (file_elements w)) <= max_nodes)
                 ws.
Proof.
  unfold main_document. intros Hrun.
  destruct (for_each_child (main_loop_body float_of_string fuel) root
              (QTNode_init (-90) 90 (-180) 180 max_nodes)) as [t|e| |] eqn:Hloop;
    try discriminate.
  injection Hrun as <-.
  destruct (for_each_child_returns float_of_string fuel root _ t Hloop)
    as (nodes & Hw & Hall).
  split.
  - clear Hall Hloop. induction Hw as [|child w children nodes Hcw _ IH]; constructor.
    + exists w. exact Hcw.
    + exact IH.
  - exists (write_leaves t out_dir "root").2.
    split; [reflexivity|]. split; [apply write_leaves_NoDup|]. split.
    + rewrite (written_elements _ _ _ _ _ _ _ _ out_dir "root" Hall).
      clear Hall Hloop. induction Hw as [|child w children nodes Hcw _ IH]; [reflexivity|].
      simpl. rewrite (wraps_element _ _ _ Hcw). constructor. exact IH.
    + pose proof (built_tree_files _ _ _ _ _ _ _ _ out_dir "root" Hall) as Hfiles.
      rewrite Forall_forall in Hfiles |- *. intros w Hin.
      split; [apply run_io_write_leaves; exact Hin | exact (Hfiles w Hin)].
Qed.

Lemma node_children_are_written_verbatim_witness :
  main_document float_of_scenario 2 scenario_document "out" 2 ∅
  = Returns (run_io (write_leaves three_points_tree "out" "root").2 ∅)
  /\ exists ws,
       concat (map file_elements ws)
       ≡ₚ ["<node id='1' lat='10' lon='10' />";
           "<node id='2' lat='20' lon='20' />";
           "<node id='3' lat='-10' lon='-10' />"].
Proof.
  assert (Hrun : main_document float_of_scenario 2 scenario_document "out" 2 ∅
                 = Returns (run_io (write_leaves three_points_tree "out" "root").2 ∅))
    by reflexivity.
  split; [exact Hrun|].
  destruct (node_children_are_written_verbatim float_of_scenario 2 scenario_document
              "out" 2 ∅ _ Hrun) as (_ & ws & _ & _ & Hperm & _).
  exists ws. exact Hperm.
Defined.

(** ** A part of the input *)

Lemma tree_of_submseteq cap a b c d s t s' :
  tree_of cap a b c d s t ->
  s' ⊆+ s ->
  exists t', tree_of cap a b c d s' t' /\ (depth t' <= depth t)%nat.
Proof.
  intros Ht Hsub.
  destruct (submseteq_Permutation _ _ Hsub) as [k Hperm].
  destruct (tree_of_Permutation _ _ _ _ _ _ _ Ht _ Hperm) as (t1 & Ht1 & Hshape).
  destruct (tree_of_prefix _ _ _ _ _ _ _ Ht1 s' k eq_refl) as (t' & Ht' & Hd).
  exists t'. split; [exact Ht'|].
  rewrite (same_shape_depth _ _ Hshape). exact Hd.
Qed.

(** X15 (a part of the input).  When the insertion of an input returns,
    so does the insertion of any part of it, taken in any order, within the
    same depth of recursion.  Hence one location that occurs more often in
    the input than the capacity allows is enough for the insertion never to
    return, whatever the other records are and wherever the repeated ones
    stand; [main] then never returns either. *)
Theorem part_of_the_input (cap : Z) (nodes nodes' : list OsmNodeWrapper) :
  nodes' ⊆+ nodes ->
  (forall fuel a b c d t,
      add_all fuel (QTNode_init a b c d cap) nodes = Ok t ->
      exists t',
        (depth t' <= depth t)%nat
        /\ forall fuel', (depth t < fuel')%nat ->
             add_all fuel' (QTNode_init a b c d cap) nodes' = Ok t')
  /\ (forall p,
         nodes' <> [] ->
         Forall (coincident p) nodes' ->
         cap < Z.of_nat (length nodes') ->
         (forall fuel a b c d,
             add_all fuel (QTNode_init a b c d cap) nodes = OutOfFuel)
         /\ forall fuel out_dir fs, main fuel nodes out_dir cap fs = OutOfFuel).
Proof.
  intros Hsub.
  assert (Hpart : forall fuel a b c d t,
             add_all fuel (QTNode_init a b c d cap) nodes = Ok t ->
             exists t',
               (depth t' <= depth t)%nat
               /\ forall fuel', (depth t < fuel')%nat ->
                    add_all fuel' (QTNode_init a b c d cap) nodes' = Ok t').
  { intros fuel a b c d t Hall.
    destruct (add_all_init_inv _ _ _ _ _ _ _ _ Hall) as [[-> ->] | (_ & Hcap & Ht)].
    - apply submseteq_nil_r in Hsub. subst nodes'.
      exists (QTNode_init a b c d cap). split; [reflexivity|].
      intros fuel' _. reflexivity.
    - destruct (tree_of_submseteq _ _ _ _ _ _ _ _ Ht Hsub) as (t' & Ht' & Hd).
      exists t'. split; [exact Hd|]. intros fuel' Hf.
      apply (add_all_complete cap a b c d nodes' [] _ _
               (QTNode_init_tree_of cap a b c d ltac:(lia)) Ht'). lia. }
  split; [exact Hpart|].
  intros p Hne Hco Hover.
  assert (Hnever : forall fuel a b c d,
             add_all fuel (QTNode_init a b c d cap) nodes = OutOfFuel).
  { intros fuel a b c d.
    destruct (add_all fuel (QTNode_init a b c d cap) nodes) as [t| |] eqn:Hall.
    - exfalso. destruct (Hpart _ _ _ _ _ _ Hall) as (t' & _ & Hret).
      specialize (Hret (S (depth t)) ltac:(lia)).
      unfold QTNode_init in Hret.
      rewrite (add_all_coincident_OutOfFuel _ p nodes') in Hret;
        [discriminate | constructor | exact Hco | exact Hne | simpl; lia].
    - exfalso. exact (add_all_no_AttributeError _ _ _ Hall).
    - reflexivity. }
  split; [exact Hnever|].
  intros fuel out_dir fs. unfold main. rewrite Hnever. reflexivity.
Qed.

Lemma part_of_the_input_witness :
  [p_0_0; p_0_0; p_0_0] ⊆+ [p_10_10; p_0_0; p_0_0; p_20_20; p_0_0]
  /\ main 1000 [p_10_10; p_0_0; p_0_0; p_20_20; p_0_0] "out" 2 ∅ = OutOfFuel.
Proof.
  assert (Hsub : [p_0_0; p_0_0; p_0_0] ⊆+ [p_10_10; p_0_0; p_0_0; p_20_20; p_0_0]).
  { apply sublist_submseteq.
    apply sublist_cons, sublist_skip, sublist_skip, sublist_cons, sublist_skip,
          sublist_nil. }
  split; [exact Hsub|].
  apply (proj2 (part_of_the_input 2 _ _ Hsub) p_0_0);
    [discriminate | repeat constructor; reflexivity | simpl; lia].
Defined.
